(** * pynq.lib.rgbled: the RGB LED driver

    A shallow embedding of [src/pynq/lib/rgbled.py].  The class keeps three
    class attributes ([_mmio], [_rgbleds_val], [_rgbleds_start_index]) that
    every instance shares, and each instance owns [index], [_offset] and
    [_val].  Methods are written in a state-and-exception monad over the
    whole store (class attributes plus the objects allocated so far), so
    that a raise keeps whatever had been assigned before it. *)

From Stdlib Require Import ZArith Lia Bool.
From stdpp Require Import base option strings list gmap.

Local Open Scope Z_scope.

(** ** Python values and exceptions *)

Module Py.

(** The exceptions the driver can meet. *)
Inductive exn :=
| ValueError (msg : string)
| KeyError (key : string)
| TypeError
| AttributeError.

Inductive result (A : Type) :=
| Ok (a : A)
| Raise (e : exn).
Arguments Ok {A} a.
Arguments Raise {A} e.

(** An [int], or one of the floats [float("inf")] and [-float("inf")]:
    the only numbers [_rgbleds_start_index] and the shift can hold. *)
Inductive num :=
| Int (z : Z)
| Inf
| NegInf.

(** [i < n] for an int [i]. *)
Definition int_lt (i : Z) (n : num) : bool :=
  match n with
  | Int z => i <? z
  | Inf => true
  | NegInf => false
  end.

(** [i - n] for an int [i]. *)
Definition int_sub (i : Z) (n : num) : num :=
  match n with
  | Int z => Int (i - z)
  | Inf => NegInf
  | NegInf => Inf
  end.

(** [n * 3]. *)
Definition mul3 (n : num) : num :=
  match n with
  | Int z => Int (z * 3)
  | Inf => Inf
  | NegInf => NegInf
  end.

(** [a << n]: a float count is a [TypeError], a negative one a
    [ValueError]; Python ints do not wrap. *)
Definition lshift (a : Z) (n : num) : result Z :=
  match n with
  | Int k => if k <? 0 then Raise (ValueError "negative shift count")
             else Ok (Z.shiftl a k)
  | _ => Raise TypeError
  end.

(** [a >> n]. *)
Definition rshift (a : Z) (n : num) : result Z :=
  match n with
  | Int k => if k <? 0 then Raise (ValueError "negative shift count")
             else Ok (Z.shiftr a k)
  | _ => Raise TypeError
  end.

(** [c in range(8)] for an int [c]. *)
Definition in_range8 (c : Z) : bool := (0 <=? c) && (c <? 8).

End Py.

Import Py.

(** ** The register accessor *)

(** Modelled from the spec: the class [pynq.MMIO] is not part of this
    module.  The spec describes it as a memory-mapped register accessor
    bound to a base address and a span size, whose [write(byteOffset, value)]
    stores a register-width value at [base + byteOffset] and completes
    immediately.  The accessor keeps the stores it performed, newest first. *)
Record MMIO := {
  base_addr : Z;
  span : Z;
  stores : list (Z * Z)
}.

Definition MMIO_new (base length : Z) : MMIO :=
  {| base_addr := base; span := length; stores := [] |}.

Definition MMIO_write (m : MMIO) (offset value : Z) : MMIO :=
  {| base_addr := base_addr m; span := span m;
     stores := (offset, value) :: stores m |}.

(** Modelled from the spec: [PL.ip_dict], the table of hardware blocks, is
    not part of this module; it maps a block name to a dictionary with a
    ["phys_addr"] entry, and a missing name is an error of the lookup. *)
Abbreviation ip_dict := (gmap string (gmap string Z)).

(** ** The store *)

Record instance := {
  index : Z;
  _offset : Z;
  _val : Z
}.

Record world := {
  _mmio : option MMIO;
  _rgbleds_val : Z;
  _rgbleds_start_index : num;
  heap : list instance
}.

(** The class attributes as the class body sets them, and no object. *)
Definition init : world :=
  {| _mmio := None; _rgbleds_val := 0; _rgbleds_start_index := Inf;
     heap := [] |}.

Definition set_mmio (m : option MMIO) (w : world) : world :=
  {| _mmio := m; _rgbleds_val := _rgbleds_val w;
     _rgbleds_start_index := _rgbleds_start_index w; heap := heap w |}.

Definition set_rgbleds_val (v : Z) (w : world) : world :=
  {| _mmio := _mmio w; _rgbleds_val := v;
     _rgbleds_start_index := _rgbleds_start_index w; heap := heap w |}.

Definition set_rgbleds_start_index (n : num) (w : world) : world :=
  {| _mmio := _mmio w; _rgbleds_val := _rgbleds_val w;
     _rgbleds_start_index := n; heap := heap w |}.

Definition set_heap (h : list instance) (w : world) : world :=
  {| _mmio := _mmio w; _rgbleds_val := _rgbleds_val w;
     _rgbleds_start_index := _rgbleds_start_index w; heap := h |}.

Definition set_val (v : Z) (o : instance) : instance :=
  {| index := index o; _offset := _offset o; _val := v |}.

(** ** The monad: a store that survives a raise *)

Definition M (A : Type) : Type := world → result A * world.

Definition ret {A} (a : A) : M A := λ w, (Ok a, w).

Definition bind {A B} (m : M A) (k : A → M B) : M B :=
  λ w, match m w with
       | (Ok a, w') => k a w'
       | (Raise e, w') => (Raise e, w')
       end.

Definition raise {A} (e : exn) : M A := λ w, (Raise e, w).

Definition gets {A} (f : world → A) : M A := λ w, (Ok (f w), w).

Definition modify (f : world → world) : M unit := λ w, (Ok tt, f w).

(** A pure Python expression that may raise. *)
Definition lift {A} (r : result A) : M A := λ w, (r, w).

Declare Scope py_scope.
Delimit Scope py_scope with py.
Notation "x <- m ;; k" := (bind m (λ x, k))
  (at level 100, m at next level, right associativity) : py_scope.
Notation "m ;;; k" := (bind m (λ _, k))
  (at level 100, right associativity) : py_scope.
Local Open Scope py_scope.

(** Reading the attributes of [self]; a reference to no object has none. *)
Definition getobj (self : nat) : M instance :=
  λ w, match heap w !! self with
       | Some o => (Ok o, w)
       | None => (Raise AttributeError, w)
       end.

(** Assigning an attribute of [self]. *)
Definition setobj (self : nat) (o : instance) : M unit :=
  modify (λ w, set_heap (<[self := o]> (heap w)) w).

(** A new object; its reference is its position in the heap. *)
Definition alloc (o : instance) : M nat :=
  λ w, (Ok (length (heap w)), set_heap (heap w ++ [o]) w).

(** ** The class RGBLED *)

Definition RGBLEDS_XGPIO_OFFSET : Z := 0.
Definition RGB_CLEAR : Z := 0.
Definition RGB_BLUE : Z := 1.
Definition RGB_GREEN : Z := 2.
Definition RGB_CYAN : Z := 3.
Definition RGB_RED : Z := 4.
Definition RGB_MAGENTA : Z := 5.
Definition RGB_YELLOW : Z := 6.
Definition RGB_WHITE : Z := 7.

Definition default_ip_name : string := "rgbleds_gpio".

(** [PL.ip_dict[ip_name]["phys_addr"]]. *)
Definition phys_addr (pl : ip_dict) (ip_name : string) : result Z :=
  match pl !! ip_name with
  | None => Raise (KeyError ip_name)
  | Some d => match d !! "phys_addr"%string with
              | None => Raise (KeyError "phys_addr")
              | Some a => Ok a
              end
  end.

(** [RGBLED.__init__].  The object under construction is only visible to
    the caller when the constructor returns, so it enters the heap there;
    the class attributes are assigned on the way, in the order of the
    source. *)
Definition __init__ (pl : ip_dict) (index : Z) (ip_name : string)
    (offset : Z) : M nat :=
  mmio <- gets _mmio ;;
  match mmio with
  | None =>
      base <- lift (phys_addr pl ip_name) ;;
      modify (set_mmio (Some (MMIO_new base 16)))
  | Some _ => ret tt
  end ;;;
  start <- gets _rgbleds_start_index ;;
  (if (offset =? 0) && int_lt index start
   then modify (set_rgbleds_start_index (Int index))
   else ret tt) ;;;
  if offset <? 0 then raise (ValueError "Offset cannot be a negative value.")
  else if negb (offset mod 4 =? 0)
  then raise (ValueError "Offset must be a multiple of 4.")
  else alloc {| index := index; _offset := offset; _val := 0 |}.

(** [RGBLED._set_rgbleds_value], a static method. *)
Definition _set_rgbleds_value (value offset : Z) : M unit :=
  if offset <? 0 then raise (ValueError "Offset cannot be a negative value.")
  else if negb (offset mod 4 =? 0)
  then raise (ValueError "Offset must be a multiple of 4.")
  else
    (if offset =? 0 then modify (set_rgbleds_val value) else ret tt) ;;;
    mmio <- gets _mmio ;;
    match mmio with
    | None => raise AttributeError
    | Some m =>
        modify (set_mmio
                  (Some (MMIO_write m (RGBLEDS_XGPIO_OFFSET + offset) value)))
    end.

(** [(self.index - RGBLED._rgbleds_start_index) * 3]. *)
Definition shift_of (o : instance) (start : num) : num :=
  mul3 (int_sub (index o) start).

(** [RGBLED.on]. *)
Definition on (self : nat) (color : Z) : M unit :=
  if negb (in_range8 color)
  then raise (ValueError "color should be an integer value from 0 to 7.")
  else
    o <- getobj self ;;
    if 0 <? _offset o then
      let v := Z.lor (Z.land (_val o) (Z.lnot 7)) color in
      setobj self (set_val v o) ;;;
      _set_rgbleds_value v (_offset o)
    else
      start <- gets _rgbleds_start_index ;;
      rgb_mask <- lift (lshift 7 (shift_of o start)) ;;
      cur <- gets _rgbleds_val ;;
      field <- lift (lshift color (shift_of o start)) ;;
      _set_rgbleds_value (Z.lor (Z.land cur (Z.lnot rgb_mask)) field) 0.

(** [RGBLED.off]. *)
Definition off (self : nat) : M unit :=
  o <- getobj self ;;
  if 0 <? _offset o then
    let v := Z.land (_val o) (Z.lnot 7) in
    setobj self (set_val v o) ;;;
    _set_rgbleds_value v (_offset o)
  else
    start <- gets _rgbleds_start_index ;;
    rgb_mask <- lift (lshift 7 (shift_of o start)) ;;
    cur <- gets _rgbleds_val ;;
    _set_rgbleds_value (Z.land cur (Z.lnot rgb_mask)) 0.

(** [RGBLED.write]. *)
Definition write (self : nat) (color : Z) : M unit := on self color.

(** [RGBLED.read]. *)
Definition read (self : nat) : M Z :=
  o <- getobj self ;;
  if 0 <? _offset o then ret (_val o)
  else
    cur <- gets _rgbleds_val ;;
    start <- gets _rgbleds_start_index ;;
    shifted <- lift (rshift cur (shift_of o start)) ;;
    ret (Z.land shifted 7).

(** ** Executions *)

(** What a caller can do with the class: construct, call a method on a
    reference it holds, or call the static register-write method. *)
Inductive call :=
| New (index : Z) (ip_name : string) (offset : Z)
| On (self : nat) (color : Z)
| Off (self : nat)
| Write (self : nat) (color : Z)
| Read (self : nat)
| SetValue (value offset : Z).

Inductive value :=
| VNone
| VRef (r : nat)
| VInt (z : Z).

Definition exec (pl : ip_dict) (c : call) : M value :=
  match c with
  | New i name off => r <- __init__ pl i name off ;; ret (VRef r)
  | On self color => on self color ;;; ret VNone
  | Off self => off self ;;; ret VNone
  | Write self color => write self color ;;; ret VNone
  | Read self => z <- read self ;; ret (VInt z)
  | SetValue v off => _set_rgbleds_value v off ;;; ret VNone
  end.

(** The stores an execution can be in; the table of hardware blocks may
    differ from call to call. *)
Inductive reachable : world → Prop :=
| reach_init : reachable init
| reach_step pl c w : reachable w → reachable (exec pl c w).2.

(** The smallest [index] among the objects with [_offset == 0], in the
    numbers of [_rgbleds_start_index]: [Inf] when there is none. *)
Fixpoint min_shared_index (h : list instance) : num :=
  match h with
  | [] => Inf
  | o :: h' =>
      if (_offset o =? 0) && int_lt (index o) (min_shared_index h')
      then Int (index o)
      else min_shared_index h'
  end.

(** [m <= n] on the numbers of [_rgbleds_start_index]. *)
Definition num_le (m n : num) : Prop :=
  match m, n with
  | NegInf, _ => True
  | _, Inf => True
  | Int a, Int b => a <= b
  | _, _ => False
  end.

(** What every object of a reachable store satisfies. *)
Record inst_ok (w : world) (o : instance) : Prop := {
  ok_offset : 0 <= _offset o ∧ _offset o mod 4 = 0;
  ok_val : 0 <= _val o < 8;
  ok_start : _offset o = 0 →
             ∃ b, _rgbleds_start_index w = Int b ∧ b <= index o
}.

Record world_ok (w : world) : Prop := {
  ok_mmio : heap w ≠ [] → is_Some (_mmio w);
  ok_heap : ∀ r o, heap w !! r = Some o → inst_ok w o;
  ok_min : _rgbleds_start_index w = min_shared_index (heap w)
}.

(** ** Definitions used by the proofs *)

(** The store after the lazy binding of the accessor, or the error of the
    lookup. *)
Definition bound (pl : ip_dict) (ip_name : string) (w : world) : result world :=
  match _mmio w with
  | Some _ => Ok w
  | None => match phys_addr pl ip_name with
            | Ok base => Ok (set_mmio (Some (MMIO_new base 16)) w)
            | Raise e => Raise e
            end
  end.

(** The store after the update of the baseline. *)
Definition lowered (i off : Z) (w : world) : world :=
  if (off =? 0) && int_lt i (_rgbleds_start_index w)
  then set_rgbleds_start_index (Int i) w else w.

(** The value [on] writes for a bit-packed object. *)
Definition packed (cur color k : Z) : Z :=
  Z.lor (Z.land cur (Z.lnot (Z.shiftl 7 k))) (Z.shiftl color k).

(** The store after a successful register write. *)
Definition stored (m : MMIO) (v off : Z) (w : world) : world :=
  set_mmio (Some (MMIO_write m (RGBLEDS_XGPIO_OFFSET + off) v)) w.

(** One step of the incremental computation of [__init__]. *)
Definition lower_to (o : instance) (n : num) : num :=
  if (_offset o =? 0) && int_lt (index o) n then Int (index o) else n.

(** A sequence of calls, with what each returned or raised. *)
Fixpoint run (pl : ip_dict) (cs : list call) (w : world)
    : list (result value) * world :=
  match cs with
  | [] => ([], w)
  | c :: cs' =>
      let (r, w') := exec pl c w in
      let (rs, w'') := run pl cs' w' in
      (r :: rs, w'')
  end.

(** A table of hardware blocks with the LED controller in it. *)
Definition board : ip_dict :=
  {[ default_ip_name := {[ "phys_addr"%string := 1092681728 ]} ]}.

(** The stores performed so far through the shared accessor, newest first;
    none while no accessor is bound. *)
Definition hw_stores (w : world) : list (Z * Z) :=
  match _mmio w with
  | Some m => stores m
  | None => []
  end.

(** The value most recently stored at the byte offset [k], if any. *)
Fixpoint latest_store (k : Z) (l : list (Z * Z)) : option Z :=
  match l with
  | [] => None
  | (k', v) :: l' => if k' =? k then Some v else latest_store k l'
  end.

(** The calls that end in a store through the accessor when they return. *)
Definition is_store_call (c : call) : bool :=
  match c with
  | On _ _ | Off _ | Write _ _ | SetValue _ _ => true
  | New _ _ _ | Read _ => false
  end.

(** * Proofs *)

(** ** Three-bit fields of an unbounded integer *)

Section bits.

Lemma testbit_7 n : 0 <= n → Z.testbit 7 n = (n <? 3).
Proof. intros Hn. change 7 with (Z.ones 3). by apply Z.testbit_ones_nonneg. Qed.

Lemma testbit_color c n : 0 <= c < 8 → 3 <= n → Z.testbit c n = false.
Proof.
  intros Hc Hn. rewrite <- (Z.mod_small c (2 ^ 3)) by (simpl; lia).
  apply Z.mod_pow2_bits_high. lia.
Qed.

Lemma testbit_field_mask k n :
  0 <= k → 0 <= n →
  Z.testbit (Z.lnot (Z.shiftl 7 k)) n = negb ((k <=? n) && (n <? k + 3)).
Proof.
  intros Hk Hn. rewrite Z.lnot_spec, Z.shiftl_spec by done. f_equal.
  destruct (Z.leb_spec k n).
  - rewrite testbit_7 by lia. simpl.
    destruct (Z.ltb_spec (n - k) 3), (Z.ltb_spec n (k + 3)); done || lia.
  - by rewrite Z.testbit_neg_r by lia.
Qed.

(** The field written at shift [k] is the field read at shift [k]. *)
Lemma field_set_get v c k :
  0 <= k → 0 <= c < 8 →
  Z.land (Z.shiftr (Z.lor (Z.land v (Z.lnot (Z.shiftl 7 k)))
                          (Z.shiftl c k)) k) 7 = c.
Proof.
  intros Hk Hc. apply Z.bits_inj'; intros n Hn.
  rewrite Z.land_spec, Z.shiftr_spec, Z.lor_spec, Z.land_spec by done.
  rewrite testbit_field_mask, Z.shiftl_spec, testbit_7 by lia.
  replace (n + k - k) with n by lia.
  destruct (Z.ltb_spec n 3).
  - replace (k <=? n + k) with true by (symmetry; apply Z.leb_le; lia).
    replace (n + k <? k + 3) with true by (symmetry; apply Z.ltb_lt; lia).
    simpl. rewrite andb_false_r, andb_true_r. done.
  - rewrite andb_false_r. symmetry. by apply testbit_color.
Qed.

(** A field cleared at shift [k] reads as 0 at shift [k]. *)
Lemma field_clear_get v k :
  0 <= k → Z.land (Z.shiftr (Z.land v (Z.lnot (Z.shiftl 7 k))) k) 7 = 0.
Proof.
  intros Hk.
  pose proof (field_set_get v 0 k Hk ltac:(lia)) as H.
  by rewrite Z.shiftl_0_l, Z.lor_0_r in H.
Qed.

(** Writing the field at shift [k] leaves the field at a shift [k'] that
    is three or more bits away as it was. *)
Lemma field_frame v c k k' :
  0 <= k → 0 <= k' → k + 3 <= k' ∨ k' + 3 <= k → 0 <= c < 8 →
  Z.land (Z.shiftr (Z.lor (Z.land v (Z.lnot (Z.shiftl 7 k)))
                          (Z.shiftl c k)) k') 7
  = Z.land (Z.shiftr v k') 7.
Proof.
  intros Hk Hk' Hfar Hc. apply Z.bits_inj'; intros n Hn.
  rewrite !Z.land_spec, !Z.shiftr_spec, Z.lor_spec, Z.land_spec by done.
  rewrite testbit_field_mask, Z.shiftl_spec, testbit_7 by lia.
  destruct (Z.ltb_spec n 3); [|by rewrite !andb_false_r].
  rewrite !andb_true_r.
  replace ((k <=? n + k') && (n + k' <? k + 3)) with false.
  2:{ symmetry. apply andb_false_iff.
      rewrite Z.leb_gt, Z.ltb_ge. lia. }
  simpl. rewrite andb_true_r.
  destruct (Z.lt_ge_cases (n + k' - k) 0).
  - by rewrite (Z.testbit_neg_r c), orb_false_r by lia.
  - by rewrite (testbit_color c), orb_false_r by lia.
Qed.

(** The private value of a dedicated-slot object holds one colour. *)
Lemma local_set v c :
  0 <= v < 8 → 0 <= c < 8 → Z.lor (Z.land v (Z.lnot 7)) c = c.
Proof.
  intros Hv Hc.
  assert (Z.land v (Z.lnot 7) = 0) as ->; [|done].
  apply Z.bits_inj'; intros n Hn.
  rewrite Z.land_spec, Z.lnot_spec, testbit_7, Z.bits_0 by done.
  destruct (Z.ltb_spec n 3); simpl.
  - apply andb_false_r.
  - by rewrite testbit_color.
Qed.

Lemma local_clear v : 0 <= v < 8 → Z.land v (Z.lnot 7) = 0.
Proof.
  intros Hv. pose proof (local_set v 0 Hv ltac:(lia)) as H.
  by rewrite Z.lor_0_r in H.
Qed.

End bits.

(** ** The methods, run on a store *)

Ltac unfold_m :=
  unfold bind, ret, raise, gets, modify, lift, getobj, setobj, alloc.

Lemma init_run pl i name off w :
  __init__ pl i name off w =
  match bound pl name w with
  | Raise e => (Raise e, w)
  | Ok w1 =>
      let w2 := lowered i off w1 in
      if off <? 0
      then (Raise (ValueError "Offset cannot be a negative value."), w2)
      else if negb (off mod 4 =? 0)
      then (Raise (ValueError "Offset must be a multiple of 4."), w2)
      else (Ok (length (heap w2)),
            set_heap (heap w2 ++ [{| index := i; _offset := off; _val := 0 |}])
                     w2)
  end.
Proof.
  unfold __init__, bound, lowered. unfold_m.
  destruct (_mmio w) as [m|] eqn:Hm; simpl.
  - destruct ((off =? 0) && _); simpl; by repeat case_match.
  - destruct (phys_addr pl name) as [b|e]; simpl; [|done].
    destruct ((off =? 0) && _); simpl; by repeat case_match.
Qed.

Lemma set_value_run v off w :
  _set_rgbleds_value v off w =
  if off <? 0
  then (Raise (ValueError "Offset cannot be a negative value."), w)
  else if negb (off mod 4 =? 0)
  then (Raise (ValueError "Offset must be a multiple of 4."), w)
  else
    let w1 := if off =? 0 then set_rgbleds_val v w else w in
    match _mmio w with
    | None => (Raise AttributeError, w1)
    | Some m =>
        (Ok tt,
         set_mmio (Some (MMIO_write m (RGBLEDS_XGPIO_OFFSET + off) v)) w1)
    end.
Proof.
  unfold _set_rgbleds_value. unfold_m.
  destruct (off <? 0); [done|]. destruct (negb _); [done|].
  destruct (off =? 0); simpl; by destruct (_mmio w).
Qed.

Lemma on_invalid self color w :
  in_range8 color = false →
  on self color w =
  (Raise (ValueError "color should be an integer value from 0 to 7."), w).
Proof. intros H. unfold on. by rewrite H. Qed.

Lemma on_shared self color w o m b :
  in_range8 color = true → heap w !! self = Some o → _offset o = 0 →
  _mmio w = Some m → _rgbleds_start_index w = Int b → b <= index o →
  on self color w =
  let v := packed (_rgbleds_val w) color ((index o - b) * 3) in
  (Ok tt, stored m v 0 (set_rgbleds_val v w)).
Proof.
  intros Hc Ho Hoff Hm Hb Hle. unfold on. rewrite Hc. unfold_m. simpl.
  rewrite Ho, Hoff. simpl. unfold shift_of. rewrite Hb. simpl.
  destruct (Z.ltb_spec ((index o - b) * 3) 0); [lia|].
  rewrite set_value_run. simpl. by rewrite Hm.
Qed.

Lemma on_dedicated self color w o m :
  in_range8 color = true → heap w !! self = Some o →
  0 < _offset o → _offset o mod 4 = 0 → _mmio w = Some m →
  on self color w =
  let v := Z.lor (Z.land (_val o) (Z.lnot 7)) color in
  (Ok tt, stored m v (_offset o) (set_heap (<[self := set_val v o]> (heap w)) w)).
Proof.
  intros Hc Ho Hoff Hmod Hm. unfold on. rewrite Hc. unfold_m. simpl.
  rewrite Ho. destruct (Z.ltb_spec 0 (_offset o)); [|lia].
  rewrite set_value_run.
  destruct (Z.ltb_spec (_offset o) 0); [lia|].
  rewrite Hmod. simpl.
  destruct (Z.eqb_spec (_offset o) 0); [lia|]. by rewrite Hm.
Qed.

Lemma off_shared self w o m b :
  heap w !! self = Some o → _offset o = 0 →
  _mmio w = Some m → _rgbleds_start_index w = Int b → b <= index o →
  off self w =
  let v := Z.land (_rgbleds_val w) (Z.lnot (Z.shiftl 7 ((index o - b) * 3))) in
  (Ok tt, stored m v 0 (set_rgbleds_val v w)).
Proof.
  intros Ho Hoff Hm Hb Hle. unfold off. unfold_m. simpl.
  rewrite Ho, Hoff. simpl. unfold shift_of. rewrite Hb. simpl.
  destruct (Z.ltb_spec ((index o - b) * 3) 0); [lia|].
  rewrite set_value_run. simpl. by rewrite Hm.
Qed.

Lemma off_dedicated self w o m :
  heap w !! self = Some o →
  0 < _offset o → _offset o mod 4 = 0 → _mmio w = Some m →
  off self w =
  let v := Z.land (_val o) (Z.lnot 7) in
  (Ok tt, stored m v (_offset o) (set_heap (<[self := set_val v o]> (heap w)) w)).
Proof.
  intros Ho Hoff Hmod Hm. unfold off. unfold_m. simpl.
  rewrite Ho. destruct (Z.ltb_spec 0 (_offset o)); [|lia].
  rewrite set_value_run.
  destruct (Z.ltb_spec (_offset o) 0); [lia|].
  rewrite Hmod. simpl.
  destruct (Z.eqb_spec (_offset o) 0); [lia|]. by rewrite Hm.
Qed.

Lemma read_shared self w o b :
  heap w !! self = Some o → _offset o = 0 →
  _rgbleds_start_index w = Int b → b <= index o →
  read self w =
  (Ok (Z.land (Z.shiftr (_rgbleds_val w) ((index o - b) * 3)) 7), w).
Proof.
  intros Ho Hoff Hb Hle. unfold read. unfold_m. simpl.
  rewrite Ho, Hoff. simpl. unfold shift_of. rewrite Hb. simpl.
  by destruct (Z.ltb_spec ((index o - b) * 3) 0); [lia|].
Qed.

Lemma read_dedicated self w o :
  heap w !! self = Some o → 0 < _offset o → read self w = (Ok (_val o), w).
Proof.
  intros Ho Hoff. unfold read. unfold_m. simpl.
  rewrite Ho. by destruct (Z.ltb_spec 0 (_offset o)); [|lia].
Qed.

(** No call of [read] assigns anything. *)
Lemma read_store self w : (read self w).2 = w.
Proof.
  unfold read. unfold_m. simpl. destruct (heap w !! self) as [o|]; [|done].
  destruct (0 <? _offset o); [done|]. simpl.
  by destruct (rshift _ _).
Qed.

(** ** The smallest bit-packed index *)

Lemma lower_to_comm a o n : lower_to a (lower_to o n) = lower_to o (lower_to a n).
Proof.
  unfold lower_to.
  destruct (_offset a =? 0), (_offset o =? 0); simpl; try done.
  destruct n as [z| |]; simpl; try done.
  - destruct (Z.ltb_spec (index o) z), (Z.ltb_spec (index a) z); simpl;
      repeat match goal with
             | |- context [?x <? ?y] => destruct (Z.ltb_spec x y)
             end; try done; try lia; f_equal; lia.
  - destruct (Z.ltb_spec (index a) (index o)),
             (Z.ltb_spec (index o) (index a)); try done; try lia.
    f_equal; lia.
Qed.

Lemma min_shared_index_cons o h :
  min_shared_index (o :: h) = lower_to o (min_shared_index h).
Proof. done. Qed.

Lemma min_shared_index_app h o :
  min_shared_index (h ++ [o]) = lower_to o (min_shared_index h).
Proof.
  induction h as [|a h IH]; [done|].
  rewrite <- app_comm_cons, !min_shared_index_cons, IH.
  apply lower_to_comm.
Qed.

(** Assigning [_val] moves no object in or out of the shared register. *)
Lemma min_shared_index_set_val h r o v :
  h !! r = Some o → min_shared_index (<[r := set_val v o]> h) = min_shared_index h.
Proof.
  revert r. induction h as [|a h IH]; intros [|r] Hr; simpl in *; try done.
  - by injection Hr as ->.
  - by rewrite IH.
Qed.

(** [min_shared_index] is the least index of a bit-packed object. *)
Lemma min_shared_index_spec h :
  match min_shared_index h with
  | Int b => (∃ r o, h !! r = Some o ∧ _offset o = 0 ∧ index o = b)
             ∧ (∀ r o, h !! r = Some o → _offset o = 0 → b <= index o)
  | Inf => ∀ r o, h !! r = Some o → _offset o ≠ 0
  | NegInf => False
  end.
Proof.
  induction h as [|a h IH]; [done|].
  rewrite min_shared_index_cons. unfold lower_to.
  destruct (Z.eqb_spec (_offset a) 0) as [Ha|Ha]; simpl.
  - destruct (min_shared_index h) as [b| |]; simpl; [| |done].
    + destruct IH as [(r & o & Hr & Ho & Hb) Hmin].
      destruct (Z.ltb_spec (index a) b).
      * split; [by exists 0%nat, a|].
        intros [|r'] o' Hr' Ho'; simpl in Hr'.
        -- injection Hr' as <-. lia.
        -- specialize (Hmin r' o' Hr' Ho'). lia.
      * split; [by exists (S r), o|].
        intros [|r'] o' Hr' Ho'; simpl in Hr'.
        -- by injection Hr' as <-.
        -- eauto.
    + split; [by exists 0%nat, a|].
      intros [|r'] o' Hr' Ho'; simpl in Hr'.
      * injection Hr' as <-. lia.
      * by destruct (IH r' o' Hr').
  - destruct (min_shared_index h) as [b| |]; [| |done].
    + destruct IH as [(r & o & Hr & Ho & Hb) Hmin].
      split; [by exists (S r), o|].
      intros [|r'] o' Hr' Ho'; simpl in Hr'.
      * by injection Hr' as <-.
      * eauto.
    + intros [|r'] o' Hr'; simpl in Hr'.
      * by injection Hr' as <-.
      * eauto.
Qed.

Lemma num_le_refl n : num_le n n.
Proof. destruct n; simpl; done || lia. Qed.

Lemma lower_to_le o n : num_le (lower_to o n) n.
Proof.
  unfold lower_to. destruct (_offset o =? 0); simpl; [|apply num_le_refl].
  destruct n as [z| |]; simpl; try done.
  destruct (Z.ltb_spec (index o) z); simpl; lia.
Qed.

(** ** The invariant of the store *)

Lemma inst_ok_start w w' o :
  _rgbleds_start_index w' = _rgbleds_start_index w → inst_ok w o → inst_ok w' o.
Proof. intros Hs [H1 H2 H3]. split; [done..|]. by rewrite Hs. Qed.

Lemma world_ok_init : world_ok init.
Proof. split; [done| |done]. by intros [|r] o. Qed.

Lemma world_ok_bind_mmio w m :
  world_ok w → world_ok (set_mmio (Some m) w).
Proof.
  intros [H1 H2 H3]. split; simpl; [by eauto| |done].
  intros r o Hr. by apply (inst_ok_start w), H2 with r.
Qed.

Lemma world_ok_stored w m v off : world_ok w → world_ok (stored m v off w).
Proof. apply world_ok_bind_mmio. Qed.

Lemma world_ok_set_rgbleds_val w v : world_ok w → world_ok (set_rgbleds_val v w).
Proof.
  intros [H1 H2 H3]. split; simpl; [done| |done].
  intros r o Hr. by apply (inst_ok_start w), H2 with r.
Qed.

Lemma world_ok_setobj w self o v :
  world_ok w → heap w !! self = Some o → 0 <= v < 8 →
  world_ok (set_heap (<[self := set_val v o]> (heap w)) w).
Proof.
  intros [H1 H2 H3] Ho Hv. split; simpl.
  - intros _. apply H1. intros Hnil. by rewrite Hnil in Ho.
  - intros r o' Hr. destruct (decide (r = self)) as [->|Hne].
    + rewrite list_lookup_insert_eq in Hr by by eapply lookup_lt_Some.
      injection Hr as <-. destruct (H2 _ _ Ho) as [Ha Hb Hc].
      by split.
    + rewrite list_lookup_insert_ne in Hr by done.
      by apply (inst_ok_start w), H2 with r.
  - by rewrite min_shared_index_set_val.
Qed.

Lemma bound_ok pl name w w1 :
  bound pl name w = Ok w1 → world_ok w → world_ok w1 ∧ is_Some (_mmio w1).
Proof.
  unfold bound. intros Hb Hw. destruct (_mmio w) as [m|] eqn:Hm.
  - injection Hb as <-. by rewrite Hm.
  - destruct (phys_addr pl name) as [b|e]; [|done]. injection Hb as <-.
    split; [by apply world_ok_bind_mmio|by eexists].
Qed.

Lemma world_ok_start w : world_ok w → _rgbleds_start_index w ≠ NegInf.
Proof.
  intros [_ _ H3] Hneg. pose proof (min_shared_index_spec (heap w)) as Hs.
  by rewrite <- H3, Hneg in Hs.
Qed.

Lemma lowered_start i off w :
  _rgbleds_start_index (lowered i off w)
  = lower_to {| index := i; _offset := off; _val := 0 |} (_rgbleds_start_index w).
Proof. unfold lowered, lower_to. simpl. by destruct (_ && _). Qed.

Lemma lowered_rest i off w :
  _mmio (lowered i off w) = _mmio w
  ∧ _rgbleds_val (lowered i off w) = _rgbleds_val w
  ∧ heap (lowered i off w) = heap w.
Proof. unfold lowered. by destruct (_ && _). Qed.

Lemma lowered_id i off w : off ≠ 0 → lowered i off w = w.
Proof. intros H. unfold lowered. by destruct (Z.eqb_spec off 0). Qed.

Lemma init_ok pl i name off w : world_ok w → world_ok (__init__ pl i name off w).2.
Proof.
  intros Hw. rewrite init_run.
  destruct (bound pl name w) as [w1|e] eqn:Hb; [|done].
  destruct (bound_ok _ _ _ _ Hb Hw) as [Hw1 Hm1]. simpl.
  destruct (Z.ltb_spec off 0).
  { simpl. by rewrite lowered_id by lia. }
  destruct (Z.eqb_spec (off mod 4) 0) as [Hmod|Hmod]; simpl.
  2:{ rewrite lowered_id; [done|]. by intros ->. }
  pose proof (world_ok_start _ Hw1) as Hneg.
  destruct Hw1 as [H1 H2 H3].
  destruct (lowered_rest i off w1) as (Em & Ev & Eh).
  split; simpl.
  - intros _. by rewrite Em.
  - intros r o Hr. rewrite Eh in Hr.
    assert (∀ o', inst_ok w1 o' ∨ o' = {| index := i; _offset := off; _val := 0 |}
                 → inst_ok (lowered i off w1) o') as Hstep.
    { intros o' Ho'. split.
      - destruct Ho' as [[? _ _]| ->]; done.
      - destruct Ho' as [[_ ? _]| ->]; [done|simpl; lia].
      - intros Hoff. rewrite lowered_start. unfold lower_to. simpl.
        destruct Ho' as [[_ _ Hs]| ->].
        + destruct (Hs Hoff) as (b & Hb' & Hle). rewrite Hb'. simpl.
          destruct (Z.eqb_spec off 0); simpl; [|by eauto].
          destruct (Z.ltb_spec i b); eexists; split; done || lia.
        + simpl in Hoff. subst off. simpl.
          destruct (_rgbleds_start_index w1) as [b| |]; simpl; [| |done].
          * destruct (Z.ltb_spec i b); eexists; split; done || lia.
          * by eexists. }
    apply (inst_ok_start (lowered i off w1)); [done|].
    apply Hstep. apply lookup_app_Some in Hr as [Hr|[_ Hr]]; [left; eauto|].
    right. destruct (r - length (heap w1))%nat; simpl in Hr; [|done].
    by injection Hr as <-.
  - by rewrite lowered_start, Eh, min_shared_index_app, H3.
Qed.

Lemma set_value_ok v off w : world_ok w → world_ok (_set_rgbleds_value v off w).2.
Proof.
  intros Hw. rewrite set_value_run.
  destruct (off <? 0); [done|]. destruct (negb _); [done|]. simpl.
  assert (world_ok (if off =? 0 then set_rgbleds_val v w else w)) as Hw1.
  { destruct (off =? 0); [by apply world_ok_set_rgbleds_val|done]. }
  destruct (_mmio w); simpl; [by apply world_ok_stored|done].
Qed.

(** A bit-packed object of a good store: its baseline and bound accessor. *)
Lemma shared_ready w self o :
  world_ok w → heap w !! self = Some o → _offset o = 0 →
  ∃ m b, _mmio w = Some m ∧ _rgbleds_start_index w = Int b ∧ b <= index o.
Proof.
  intros [H1 H2 _] Ho Hoff.
  destruct H1 as [m Hm]; [intros Hnil; by rewrite Hnil in Ho|].
  destruct (H2 _ _ Ho) as [_ _ Hs]. destruct (Hs Hoff) as (b & ? & ?).
  by exists m, b.
Qed.

(** A dedicated-slot object of a good store. *)
Lemma dedicated_ready w self o :
  world_ok w → heap w !! self = Some o → _offset o ≠ 0 →
  ∃ m, _mmio w = Some m ∧ 0 < _offset o ∧ _offset o mod 4 = 0 ∧ 0 <= _val o < 8.
Proof.
  intros [H1 H2 _] Ho Hoff.
  destruct H1 as [m Hm]; [intros Hnil; by rewrite Hnil in Ho|].
  destruct (H2 _ _ Ho) as [[? ?] ? _]. exists m. repeat split; done || lia.
Qed.

Lemma in_range8_true c : in_range8 c = true ↔ 0 <= c < 8.
Proof. unfold in_range8. rewrite andb_true_iff, Z.leb_le, Z.ltb_lt. done. Qed.

Lemma in_range8_false c : in_range8 c = false ↔ ¬ (0 <= c < 8).
Proof. rewrite <- in_range8_true. by destruct (in_range8 c). Qed.

Lemma on_ok self color w : world_ok w → world_ok (on self color w).2.
Proof.
  intros Hw. destruct (in_range8 color) eqn:Hc; [|by rewrite on_invalid].
  destruct (heap w !! self) as [o|] eqn:Ho.
  2:{ unfold on. rewrite Hc. unfold_m. simpl. by rewrite Ho. }
  destruct (decide (_offset o = 0)) as [Hoff|Hoff].
  - destruct (shared_ready _ _ _ Hw Ho Hoff) as (m & b & Hm & Hb & Hle).
    rewrite (on_shared _ _ _ _ _ _ Hc Ho Hoff Hm Hb Hle). simpl.
    by apply world_ok_stored, world_ok_set_rgbleds_val.
  - destruct (dedicated_ready _ _ _ Hw Ho Hoff) as (m & Hm & Hpos & Hmod & Hv).
    rewrite (on_dedicated _ _ _ _ _ Hc Ho Hpos Hmod Hm). simpl.
    apply world_ok_stored, world_ok_setobj; [done..|].
    rewrite local_set; [|done|]; by apply in_range8_true.
Qed.

Lemma off_ok self w : world_ok w → world_ok (off self w).2.
Proof.
  intros Hw. destruct (heap w !! self) as [o|] eqn:Ho.
  2:{ unfold off. unfold_m. simpl. by rewrite Ho. }
  destruct (decide (_offset o = 0)) as [Hoff|Hoff].
  - destruct (shared_ready _ _ _ Hw Ho Hoff) as (m & b & Hm & Hb & Hle).
    rewrite (off_shared _ _ _ _ _ Ho Hoff Hm Hb Hle). simpl.
    by apply world_ok_stored, world_ok_set_rgbleds_val.
  - destruct (dedicated_ready _ _ _ Hw Ho Hoff) as (m & Hm & Hpos & Hmod & Hv).
    rewrite (off_dedicated _ _ _ _ Ho Hpos Hmod Hm). simpl.
    apply world_ok_stored, world_ok_setobj; [done..|].
    rewrite local_clear by done. lia.
Qed.

(** The store after a call is the store after the method it runs. *)
Lemma exec_store pl c w :
  (exec pl c w).2 =
  match c with
  | New i name off => (__init__ pl i name off w).2
  | On self color | Write self color => (on self color w).2
  | Off self => (off self w).2
  | Read self => w
  | SetValue v off => (_set_rgbleds_value v off w).2
  end.
Proof.
  destruct c; simpl; unfold write; unfold bind, ret;
    try (by case_match; case_match).
  rewrite <- (read_store self w) at 2. by case_match; case_match.
Qed.

Lemma exec_ok pl c w : world_ok w → world_ok (exec pl c w).2.
Proof.
  intros Hw. rewrite exec_store.
  destruct c; auto using init_ok, on_ok, off_ok, set_value_ok.
Qed.

Lemma reachable_ok w : reachable w → world_ok w.
Proof. induction 1; [apply world_ok_init|by apply exec_ok]. Qed.

(** ** Which attributes a method assigns *)

Lemma phys_addr_raises pl name e :
  phys_addr pl name = Raise e → ∃ key, e = KeyError key.
Proof.
  unfold phys_addr. intros H. repeat case_match; try done;
    injection H as <-; by eexists.
Qed.

Lemma set_value_start v off w :
  _rgbleds_start_index (_set_rgbleds_value v off w).2 = _rgbleds_start_index w.
Proof. rewrite set_value_run. by repeat case_match. Qed.

Lemma set_value_heap v off w : heap (_set_rgbleds_value v off w).2 = heap w.
Proof. rewrite set_value_run. by repeat case_match. Qed.

Lemma set_value_val v off w :
  _rgbleds_val (_set_rgbleds_value v off w).2
  = if off =? 0 then v else _rgbleds_val w.
Proof.
  rewrite set_value_run.
  destruct (Z.ltb_spec off 0).
  { simpl. destruct (Z.eqb_spec off 0); [lia|done]. }
  destruct (Z.eqb_spec (off mod 4) 0); simpl.
  - by destruct (_mmio w), (off =? 0).
  - destruct (Z.eqb_spec off 0) as [->|]; done.
Qed.

Lemma on_start self color w :
  _rgbleds_start_index (on self color w).2 = _rgbleds_start_index w.
Proof.
  unfold on. destruct (negb _); [done|]. unfold_m.
  destruct (heap w !! self) as [o|]; [|done].
  destruct (0 <? _offset o); simpl.
  - match goal with
    | |- context [_set_rgbleds_value ?v ?k ?w'] =>
        pose proof (set_value_start v k w') as Hs;
        destruct (_set_rgbleds_value v k w') as [[]]; exact Hs
    end.
  - destruct (lshift 7 _); [simpl|done]. destruct (lshift color _); [simpl|done].
    apply set_value_start.
Qed.

Lemma off_start self w :
  _rgbleds_start_index (off self w).2 = _rgbleds_start_index w.
Proof.
  unfold off. unfold_m.
  destruct (heap w !! self) as [o|]; [|done].
  destruct (0 <? _offset o); simpl.
  - match goal with
    | |- context [_set_rgbleds_value ?v ?k ?w'] =>
        pose proof (set_value_start v k w') as Hs;
        destruct (_set_rgbleds_value v k w') as [[]]; exact Hs
    end.
  - destruct (lshift 7 _); [simpl|done]. apply set_value_start.
Qed.

Lemma init_start pl i name off w :
  _rgbleds_start_index (__init__ pl i name off w).2 = _rgbleds_start_index w
  ∨ _rgbleds_start_index (__init__ pl i name off w).2
    = lower_to {| index := i; _offset := off; _val := 0 |}
               (_rgbleds_start_index w).
Proof.
  rewrite init_run. destruct (bound pl name w) as [w1|e] eqn:Hb; [|by left].
  right. assert (_rgbleds_start_index w1 = _rgbleds_start_index w) as <-.
  { unfold bound in Hb. repeat case_match; try done; by injection Hb as <-. }
  simpl. repeat case_match; simpl; apply lowered_start.
Qed.

Lemma exec_start_le pl c w :
  num_le (_rgbleds_start_index (exec pl c w).2) (_rgbleds_start_index w).
Proof.
  rewrite exec_store. destruct c as [i name off|s color|s|s color|s|v off].
  - destruct (init_start pl i name off w) as [-> | ->];
      [apply num_le_refl|apply lower_to_le].
  - rewrite on_start. apply num_le_refl.
  - rewrite off_start. apply num_le_refl.
  - rewrite on_start. apply num_le_refl.
  - apply num_le_refl.
  - rewrite set_value_start. apply num_le_refl.
Qed.

Lemma run_reachable pl cs w : reachable w → reachable (run pl cs w).2.
Proof.
  revert w. induction cs as [|c cs IH]; intros w Hw; [done|]. simpl.
  pose proof (reach_step pl c w Hw) as Hstep.
  destruct (exec pl c w) as [r w']. specialize (IH w' Hstep).
  by destruct (run pl cs w').
Qed.

(** * The claims *)

(** ** Validation *)

(** C7: for every integer [color] outside [0,8), [on(color)] raises the
    invalid-argument error [ValueError], whatever object it is called on and
    whatever the store, and so does [write(color)], which calls [on]. *)
Theorem on_rejects_invalid_color (self : nat) (color : Z) (w : world) :
  ¬ (0 <= color < 8) →
  on self color w
  = (Raise (ValueError "color should be an integer value from 0 to 7."), w)
  ∧ write self color w
    = (Raise (ValueError "color should be an integer value from 0 to 7."), w).
Proof.
  intros Hc. apply in_range8_false in Hc. unfold write.
  by rewrite on_invalid.
Qed.

Lemma on_rejects_invalid_color_witness :
  ¬ (0 <= 8 < 8)
  ∧ on 0 8 init
    = (Raise (ValueError "color should be an integer value from 0 to 7."), init)
  ∧ write 0 8 init
    = (Raise (ValueError "color should be an integer value from 0 to 7."), init).
Proof.
  split; [lia|]. apply (on_rejects_invalid_color 0 8 init). lia.
Defined.

(** C8, as the claim states it, fails: with no accessor bound yet and a
    block name that the table does not know, constructing with the offset
    [-4] raises the [KeyError] of the lookup, not an invalid-argument
    error. *)
Lemma init_invalid_offset_unresolved :
  (-4 < 0 ∨ -4 mod 4 ≠ 0)
  ∧ __init__ ∅ 0 default_ip_name (-4) init
    = (Raise (KeyError default_ip_name), init)
  ∧ ∀ msg, (__init__ ∅ 0 default_ip_name (-4) init).1 ≠ Raise (ValueError msg).
Proof. split; [left; lia|]. split; [reflexivity|discriminate]. Qed.

(** C8, amended: for every [offset] with [offset < 0] or
    [offset % 4 != 0], the register-write method raises [ValueError] (and
    assigns nothing); constructing with that offset raises [ValueError] when
    the accessor is already bound or the block name resolves, and otherwise
    raises the error of the lookup, which runs before the offset is
    checked. *)
Theorem invalid_offset_rejected (offset : Z) :
  offset < 0 ∨ offset mod 4 ≠ 0 →
  (∀ value w, ∃ msg,
      _set_rgbleds_value value offset w = (Raise (ValueError msg), w))
  ∧ (∀ pl index ip_name w,
        is_Some (_mmio w) ∨ (∃ base, phys_addr pl ip_name = Ok base) →
        ∃ msg, (__init__ pl index ip_name offset w).1 = Raise (ValueError msg))
  ∧ (∀ pl index ip_name w e,
        _mmio w = None → phys_addr pl ip_name = Raise e →
        __init__ pl index ip_name offset w = (Raise e, w)).
Proof.
  intros Hoff. split; [|split].
  - intros v w. rewrite set_value_run.
    destruct (Z.ltb_spec offset 0); [by eexists|].
    destruct (Z.eqb_spec (offset mod 4) 0); [lia|by eexists].
  - intros pl i name w Hres. rewrite init_run.
    assert (∃ w1, bound pl name w = Ok w1) as [w1 ->].
    { unfold bound. destruct (_mmio w) as [m|]; [by eexists|].
      destruct Hres as [[? ?]|[b ->]]; [done|by eexists]. }
    simpl. destruct (Z.ltb_spec offset 0); [by eexists|].
    destruct (Z.eqb_spec (offset mod 4) 0); [lia|by eexists].
  - intros pl i name w e Hm He. rewrite init_run. unfold bound.
    by rewrite Hm, He.
Qed.

Lemma invalid_offset_rejected_witness :
  (∃ msg, _set_rgbleds_value 5 (-4) init = (Raise (ValueError msg), init))
  ∧ (∃ msg, (__init__ board 0 default_ip_name 6 init).1
            = Raise (ValueError msg))
  ∧ __init__ ∅ 0 default_ip_name 6 init
    = (Raise (KeyError default_ip_name), init).
Proof.
  split; [|split].
  - apply (invalid_offset_rejected (-4)). left. lia.
  - apply (invalid_offset_rejected 6); [right; by vm_compute|].
    right. exists 1092681728. reflexivity.
  - apply (invalid_offset_rejected 6); [right; by vm_compute|done|reflexivity].
Defined.

(** C1, as the claim states it, fails: the first construction binds the
    shared accessor before it checks the offset, so a construction that
    raises [ValueError] can leave [_mmio] assigned. *)
Lemma init_invalid_offset_binds_accessor :
  __init__ board 0 default_ip_name (-4) init
  = (Raise (ValueError "Offset cannot be a negative value."),
     set_mmio (Some (MMIO_new 1092681728 16)) init)
  ∧ _mmio init = None
  ∧ set_mmio (Some (MMIO_new 1092681728 16)) init ≠ init.
Proof. split; [reflexivity|]. split; [reflexivity|discriminate]. Qed.

(** C1, amended: in every store an execution can reach, [on] and [write]
    that raise [ValueError], and the register-write method that raises
    [ValueError] (in any store), have assigned nothing; a construction that
    raises [ValueError] has assigned neither the shared value, nor the
    baseline index, nor any object, and it leaves the shared accessor as it
    was when that was already bound; when it was not, the accessor has been
    bound, before the offset was checked. *)
Theorem invalid_argument_leaves_state :
  (∀ w self color msg,
      reachable w →
      (on self color w).1 = Raise (ValueError msg) →
      (on self color w).2 = w ∧ (write self color w).2 = w)
  ∧ (∀ w value offset msg,
        (_set_rgbleds_value value offset w).1 = Raise (ValueError msg) →
        (_set_rgbleds_value value offset w).2 = w)
  ∧ (∀ w pl index ip_name offset msg,
        (__init__ pl index ip_name offset w).1 = Raise (ValueError msg) →
        let w' := (__init__ pl index ip_name offset w).2 in
        _rgbleds_val w' = _rgbleds_val w
        ∧ _rgbleds_start_index w' = _rgbleds_start_index w
        ∧ heap w' = heap w
        ∧ (is_Some (_mmio w) → w' = w)
        ∧ (_mmio w = None →
           ∃ base, phys_addr pl ip_name = Ok base
                   ∧ _mmio w' = Some (MMIO_new base 16))).
Proof.
  split; [|split].
  - intros w self color msg Hw%reachable_ok. unfold write.
    destruct (in_range8 color) eqn:Hc; [|by rewrite on_invalid].
    destruct (heap w !! self) as [o|] eqn:Ho.
    2:{ unfold on. rewrite Hc. unfold_m. simpl. by rewrite Ho. }
    destruct (decide (_offset o = 0)) as [Hoff|Hoff].
    + destruct (shared_ready _ _ _ Hw Ho Hoff) as (m & b & Hm & Hb & Hle).
      by rewrite (on_shared _ _ _ _ _ _ Hc Ho Hoff Hm Hb Hle).
    + destruct (dedicated_ready _ _ _ Hw Ho Hoff) as (m & Hm & Hpos & Hmod & Hv).
      by rewrite (on_dedicated _ _ _ _ _ Hc Ho Hpos Hmod Hm).
  - intros w v off msg. rewrite set_value_run.
    destruct (off <? 0); [done|]. destruct (negb _); [done|].
    by destruct (_mmio w).
  - intros w pl i name off msg. rewrite init_run.
    destruct (bound pl name w) as [w1|e] eqn:Hb.
    2:{ simpl. intros [= ->]. unfold bound in Hb.
        destruct (_mmio w); [done|].
        destruct (phys_addr pl name) eqn:He; [done|].
        injection Hb as ->. by destruct (phys_addr_raises _ _ _ He). }
    assert (off < 0 ∨ off mod 4 ≠ 0 →
            let w' := w1 in
            _rgbleds_val w' = _rgbleds_val w
            ∧ _rgbleds_start_index w' = _rgbleds_start_index w
            ∧ heap w' = heap w
            ∧ (is_Some (_mmio w) → w' = w)
            ∧ (_mmio w = None →
               ∃ base, phys_addr pl name = Ok base
                       ∧ _mmio w' = Some (MMIO_new base 16))) as Hgoal.
    { intros _. unfold bound in Hb. destruct (_mmio w) as [m|] eqn:Hm.
      - injection Hb as <-. by repeat split.
      - destruct (phys_addr pl name) as [base|]; [|done]. injection Hb as <-.
        simpl. repeat split; [by intros [? ?]|by eexists]. }
    simpl. destruct (Z.ltb_spec off 0).
    { simpl. intros _. rewrite lowered_id by lia. apply Hgoal. by left. }
    destruct (Z.eqb_spec (off mod 4) 0) as [Hmod|Hmod]; simpl; [done|].
    intros _. rewrite lowered_id by (by intros ->). apply Hgoal. by right.
Qed.

Lemma invalid_argument_leaves_state_witness :
  (on 0 9 init).2 = init
  ∧ (_set_rgbleds_value 1 2 init).2 = init
  ∧ heap (__init__ board 0 default_ip_name (-4) init).2 = heap init.
Proof.
  destruct invalid_argument_leaves_state as (Hon & Hset & Hnew).
  split; [|split].
  - eapply (Hon init 0%nat 9); [apply reach_init|reflexivity].
  - eapply (Hset init 1 2). reflexivity.
  - eapply (Hnew init board 0 default_ip_name (-4)). reflexivity.
Defined.

(** ** Round trips *)

(** C3: in every store an execution can reach, for every object [self]
    (bit-packed or with a dedicated slot) and every [color] in [0,8),
    [on(color)] returns, and [read()] called right after it on the same
    object returns [color]. *)
Theorem on_then_read (w : world) (self : nat) (o : instance) (color : Z) :
  reachable w → heap w !! self = Some o → 0 <= color < 8 →
  ∃ w', on self color w = (Ok tt, w') ∧ read self w' = (Ok color, w').
Proof.
  intros Hw%reachable_ok Ho Hcolor.
  pose proof Hcolor as Hc%in_range8_true.
  destruct (decide (_offset o = 0)) as [Hoff|Hoff].
  - destruct (shared_ready _ _ _ Hw Ho Hoff) as (m & b & Hm & Hb & Hle).
    eexists. split; [by apply on_shared|]. simpl.
    erewrite read_shared; [|done..]. simpl. unfold packed.
    by rewrite field_set_get by lia.
  - destruct (dedicated_ready _ _ _ Hw Ho Hoff) as (m & Hm & Hpos & Hmod & Hv).
    eexists. split; [by apply on_dedicated|]. simpl.
    erewrite read_dedicated; [|simpl; apply list_lookup_insert_eq;
                               by eapply lookup_lt_Some|done].
    simpl. by rewrite local_set.
Qed.

Lemma on_then_read_witness :
  ∃ w', on 0 5 (run board [New 2 default_ip_name 0] init).2 = (Ok tt, w')
        ∧ read 0 w' = (Ok 5, w').
Proof.
  eapply (on_then_read _ 0%nat {| index := 2; _offset := 0; _val := 0 |} 5).
  - apply run_reachable, reach_init.
  - reflexivity.
  - lia.
Defined.

(** C9: in every store an execution can reach, for every object [self]
    (bit-packed or with a dedicated slot), whatever colour it holds, [off()]
    returns, and [read()] called right after it on the same object returns
    0, [RGB_CLEAR]. *)
Theorem off_then_read (w : world) (self : nat) (o : instance) :
  reachable w → heap w !! self = Some o →
  ∃ w', off self w = (Ok tt, w') ∧ read self w' = (Ok RGB_CLEAR, w').
Proof.
  intros Hw%reachable_ok Ho.
  destruct (decide (_offset o = 0)) as [Hoff|Hoff].
  - destruct (shared_ready _ _ _ Hw Ho Hoff) as (m & b & Hm & Hb & Hle).
    eexists. split; [by apply off_shared|]. simpl.
    erewrite read_shared; [|done..]. simpl.
    by rewrite field_clear_get by lia.
  - destruct (dedicated_ready _ _ _ Hw Ho Hoff) as (m & Hm & Hpos & Hmod & Hv).
    eexists. split; [by apply off_dedicated|]. simpl.
    erewrite read_dedicated; [|simpl; apply list_lookup_insert_eq;
                               by eapply lookup_lt_Some|done].
    simpl. by rewrite local_clear.
Qed.

Lemma off_then_read_witness :
  ∃ w', off 0 (run board [New 2 default_ip_name 4; On 0 RGB_WHITE] init).2
        = (Ok tt, w')
        ∧ read 0 w' = (Ok RGB_CLEAR, w').
Proof.
  eapply (off_then_read _ 0%nat {| index := 2; _offset := 4; _val := 7 |}).
  - apply run_reachable, reach_init.
  - reflexivity.
Defined.

(** ** Frames *)

(** C4: in every store an execution can reach, for two bit-packed objects
    with distinct indices, [on] (and so [write]) and [off] on one leave what
    [read()] returns on the other as it was.  In particular, from the
    initial store, after constructing index 0 and index 1, setting index 0
    to [RGB_RED] and index 1 to [RGB_GREEN], [read()] returns 4 on the
    first and 2 on the second, and the shared value is [4 | (2 << 3)]. *)
Theorem bit_field_isolation :
  (∀ w s1 s2 o1 o2 color,
      reachable w → heap w !! s1 = Some o1 → heap w !! s2 = Some o2 →
      _offset o1 = 0 → _offset o2 = 0 → index o1 ≠ index o2 →
      0 <= color < 8 →
      (read s2 (on s1 color w).2).1 = (read s2 w).1
      ∧ (read s2 (write s1 color w).2).1 = (read s2 w).1
      ∧ (read s2 (off s1 w).2).1 = (read s2 w).1)
  ∧ (let (rs, w) :=
       run board [New 0 default_ip_name 0; New 1 default_ip_name 0;
                  On 0 RGB_RED; On 1 RGB_GREEN; Read 0; Read 1] init in
     rs = [Ok (VRef 0); Ok (VRef 1); Ok VNone; Ok VNone;
           Ok (VInt 4); Ok (VInt 2)]
     ∧ _rgbleds_val w = Z.lor 4 (Z.shiftl 2 3)).
Proof.
  split; [|by vm_compute].
  intros w s1 s2 o1 o2 color Hw%reachable_ok H1 H2 Hoff1 Hoff2 Hne Hcolor.
  pose proof Hcolor as Hc%in_range8_true.
  destruct (shared_ready _ _ _ Hw H1 Hoff1) as (m & b & Hm & Hb & Hle1).
  destruct (shared_ready _ _ _ Hw H2 Hoff2) as (m' & b' & _ & Hb' & Hle2).
  rewrite Hb in Hb'. injection Hb' as <-.
  unfold write.
  rewrite (on_shared _ _ _ _ _ _ Hc H1 Hoff1 Hm Hb Hle1).
  rewrite (off_shared _ _ _ _ _ H1 Hoff1 Hm Hb Hle1).
  rewrite (read_shared _ w _ _ H2 Hoff2 Hb Hle2). simpl.
  erewrite !read_shared; [|done..]. simpl. unfold packed.
  rewrite field_frame by lia.
  pose proof (field_frame (_rgbleds_val w) 0 ((index o1 - b) * 3)
                ((index o2 - b) * 3)) as Hclear.
  rewrite Z.shiftl_0_l, Z.lor_0_r in Hclear. by rewrite Hclear by lia.
Qed.

Lemma bit_field_isolation_witness :
  let w := (run board [New 0 default_ip_name 0; New 1 default_ip_name 0;
                       On 1 RGB_GREEN] init).2 in
  (read 1 (on 0 RGB_RED w).2).1 = (read 1 w).1.
Proof.
  destruct bit_field_isolation as [Hframe _].
  eapply (Hframe _ 0%nat 1%nat {| index := 0; _offset := 0; _val := 0 |}
                 {| index := 1; _offset := 0; _val := 0 |} RGB_RED).
  - apply run_reachable, reach_init.
  - reflexivity.
  - reflexivity.
  - reflexivity.
  - reflexivity.
  - simpl. lia.
  - unfold RGB_RED. lia.
Defined.

(** C5: the register-write method assigns the shared value exactly when
    its offset is 0 (then the shared value is the value written, otherwise
    it is what it was).  In every store an execution can reach, [on],
    [write] and [off] on an object constructed with a nonzero offset leave
    the shared value as it was, and leave what [read()] returns on every
    other object as it was, be it a dedicated-slot or a bit-packed one. *)
Theorem dedicated_slot_frame :
  (∀ value offset w,
      _rgbleds_val (_set_rgbleds_value value offset w).2
      = if offset =? 0 then value else _rgbleds_val w)
  ∧ (∀ w self o color,
        reachable w → heap w !! self = Some o → _offset o ≠ 0 →
        _rgbleds_val (on self color w).2 = _rgbleds_val w
        ∧ _rgbleds_val (write self color w).2 = _rgbleds_val w
        ∧ _rgbleds_val (off self w).2 = _rgbleds_val w
        ∧ ∀ other, other ≠ self →
            (read other (on self color w).2).1 = (read other w).1
            ∧ (read other (write self color w).2).1 = (read other w).1
            ∧ (read other (off self w).2).1 = (read other w).1).
Proof.
  split; [apply set_value_val|].
  intros w self o color Hw%reachable_ok Ho Hoff.
  destruct (dedicated_ready _ _ _ Hw Ho Hoff) as (m & Hm & Hpos & Hmod & Hv).
  unfold write. rewrite (off_dedicated _ _ _ _ Ho Hpos Hmod Hm).
  assert (∀ v w', heap w' = <[self := set_val v o]> (heap w) →
                  _rgbleds_val w' = _rgbleds_val w →
                  _rgbleds_start_index w' = _rgbleds_start_index w →
                  ∀ other, other ≠ self → (read other w').1 = (read other w).1)
    as Hread.
  { intros v w' Hh Hval Hstart other Hne. unfold read. unfold_m.
    rewrite Hh, list_lookup_insert_ne by done.
    destruct (heap w !! other) as [o'|]; [|done].
    destruct (0 <? _offset o'); [done|]. simpl. rewrite Hval, Hstart.
    by destruct (rshift _ _). }
  destruct (in_range8 color) eqn:Hc.
  - rewrite (on_dedicated _ _ _ _ _ Hc Ho Hpos Hmod Hm). simpl.
    repeat split; try done; by eapply Hread.
  - rewrite on_invalid by done. simpl.
    repeat split; try done; by eapply Hread.
Qed.

Lemma dedicated_slot_frame_witness :
  let w := (run board [New 0 default_ip_name 4; New 1 default_ip_name 8;
                       New 2 default_ip_name 0; On 1 RGB_BLUE;
                       On 2 RGB_CYAN] init).2 in
  _rgbleds_val (on 0 RGB_RED w).2 = _rgbleds_val w
  ∧ (read 1 (on 0 RGB_RED w).2).1 = (read 1 w).1.
Proof.
  destruct dedicated_slot_frame as [_ Hframe]. intros w.
  destruct (Hframe w 0%nat {| index := 0; _offset := 4; _val := 0 |} RGB_RED)
    as (Hon & _ & _ & Hother).
  - apply run_reachable, reach_init.
  - reflexivity.
  - simpl. lia.
  - split; [exact Hon|]. apply (Hother 1%nat). lia.
Defined.

(** ** The baseline index *)

(** What a construction that returns has done. *)
Lemma init_returns pl i name off w a w1 :
  __init__ pl i name off w = (Ok a, w1) →
  a = length (heap w)
  ∧ heap w1 = heap w ++ [{| index := i; _offset := off; _val := 0 |}]
  ∧ _rgbleds_val w1 = _rgbleds_val w
  ∧ _rgbleds_start_index w1
    = lower_to {| index := i; _offset := off; _val := 0 |}
               (_rgbleds_start_index w).
Proof.
  rewrite init_run. destruct (bound pl name w) as [w0|e] eqn:Hb; [|done].
  assert (heap w0 = heap w ∧ _rgbleds_val w0 = _rgbleds_val w
          ∧ _rgbleds_start_index w0 = _rgbleds_start_index w) as (Eh & Ev & Es).
  { unfold bound in Hb. repeat case_match; try done; by injection Hb as <-. }
  simpl. destruct (off <? 0); [done|]. destruct (negb _); [done|].
  intros [= <- <-]. destruct (lowered_rest i off w0) as (_ & Ev' & Eh').
  simpl. by rewrite lowered_start, Eh', Ev', Eh, Ev, Es.
Qed.

Lemma reachable_init pl i name off w :
  reachable w → reachable (__init__ pl i name off w).2.
Proof.
  intros Hw. pose proof (reach_step pl (New i name off) w Hw) as H.
  by rewrite exec_store in H.
Qed.

Lemma reachable_on self color w : reachable w → reachable (on self color w).2.
Proof.
  intros Hw. pose proof (reach_step ∅ (On self color) w Hw) as H.
  by rewrite exec_store in H.
Qed.

(** C6: in every store an execution can reach, [_rgbleds_start_index] is
    the smallest [index] among the objects constructed so far with
    [offset == 0]: it is the index of one of them and at most the index of
    each, and it is still its initial value, [float("inf")], when there is
    none.  No call ever raises it. *)
Theorem start_index_is_minimum (w : world) :
  reachable w →
  _rgbleds_start_index w = min_shared_index (heap w)
  ∧ match _rgbleds_start_index w with
    | Int b =>
        (∃ r o, heap w !! r = Some o ∧ _offset o = 0 ∧ index o = b)
        ∧ (∀ r o, heap w !! r = Some o → _offset o = 0 → b <= index o)
    | Inf =>
        _rgbleds_start_index init = Inf
        ∧ ∀ r o, heap w !! r = Some o → _offset o ≠ 0
    | NegInf => False
    end
  ∧ ∀ pl c,
      num_le (_rgbleds_start_index (exec pl c w).2) (_rgbleds_start_index w).
Proof.
  intros [_ _ Hmin]%reachable_ok. split; [done|]. split.
  - pose proof (min_shared_index_spec (heap w)) as Hs. rewrite Hmin.
    destruct (min_shared_index (heap w)); done.
  - intros pl c. apply exec_start_le.
Qed.

Lemma start_index_is_minimum_witness :
  let w := (run board [New 3 default_ip_name 0; New 7 default_ip_name 4;
                       New 1 default_ip_name 0; New 2 default_ip_name 0]
                init).2 in
  _rgbleds_start_index w = min_shared_index (heap w).
Proof.
  intros w. apply (start_index_is_minimum w).
  apply run_reachable, reach_init.
Defined.

(** C10: in every store an execution can reach, every object constructed
    with [offset == 0] has [index >= _rgbleds_start_index], and the shift
    [(index - _rgbleds_start_index) * 3] that [on], [off] and [read]
    compute for it is an int, nonnegative and a multiple of 3. *)
Theorem shift_is_nonnegative (w : world) (r : nat) (o : instance) :
  reachable w → heap w !! r = Some o → _offset o = 0 →
  ∃ b k, _rgbleds_start_index w = Int b ∧ b <= index o
         ∧ shift_of o (_rgbleds_start_index w) = Int k
         ∧ 0 <= k ∧ k mod 3 = 0.
Proof.
  intros Hw%reachable_ok Ho Hoff.
  destruct (shared_ready _ _ _ Hw Ho Hoff) as (m & b & _ & Hb & Hle).
  exists b, ((index o - b) * 3). unfold shift_of. rewrite Hb.
  repeat split; [done|lia|]. apply Z.mod_mul. lia.
Qed.

Lemma shift_is_nonnegative_witness :
  let w := (run board [New 3 default_ip_name 0; New 1 default_ip_name 0]
                init).2 in
  ∃ b k, _rgbleds_start_index w = Int b ∧ b <= 3
         ∧ shift_of {| index := 3; _offset := 0; _val := 0 |}
                    (_rgbleds_start_index w) = Int k
         ∧ 0 <= k ∧ k mod 3 = 0.
Proof.
  intros w.
  apply (shift_is_nonnegative w 0%nat {| index := 3; _offset := 0; _val := 0 |}).
  - apply run_reachable, reach_init.
  - reflexivity.
  - reflexivity.
Defined.

(** C2: in every store an execution can reach, when a bit-packed object
    is constructed with an index [j] below the baseline, [j] becomes the
    baseline and the shared value is not recomputed.  So for every
    bit-packed object constructed before, with [b1] the old baseline: the
    colour it read before (the colour it wrote, when its [on] was the last
    call) is still at its old bit position [(index - b1) * 3], while its
    [read], [on] and [off] now use the larger shift [(index - j) * 3].
    With index 3 first and index 1 next, the colour stays in bits 0..2 and
    the first object reads bits 6..8. *)
Theorem lower_index_moves_baseline
    (pl : ip_dict) (name : string) (w w3 : world) (j : Z) (b : nat) :
  reachable w →
  int_lt j (_rgbleds_start_index w) = true →
  __init__ pl j name 0 w = (Ok b, w3) →
  _rgbleds_start_index w3 = Int j
  ∧ _rgbleds_val w3 = _rgbleds_val w
  ∧ ∀ r o,
      heap w !! r = Some o → _offset o = 0 →
      ∃ b1 m c,
        _rgbleds_start_index w = Int b1 ∧ j < b1 ∧ b1 <= index o
        ∧ heap w3 !! r = Some o
        ∧ read r w = (Ok c, w)
        ∧ (∀ w0 color,
             reachable w0 → 0 <= color < 8 → on r color w0 = (Ok tt, w) →
             c = color)
        ∧ Z.land (Z.shiftr (_rgbleds_val w3) ((index o - b1) * 3)) 7 = c
        ∧ (index o - b1) * 3 < (index o - j) * 3
        ∧ read r w3
          = (Ok (Z.land (Z.shiftr (_rgbleds_val w3) ((index o - j) * 3)) 7),
             w3)
        ∧ (∀ c', 0 <= c' < 8 →
             on r c' w3
             = (let v := packed (_rgbleds_val w3) c' ((index o - j) * 3) in
                (Ok tt, stored m v 0 (set_rgbleds_val v w3))))
        ∧ off r w3
          = (let v := Z.land (_rgbleds_val w3)
                             (Z.lnot (Z.shiftl 7 ((index o - j) * 3))) in
             (Ok tt, stored m v 0 (set_rgbleds_val v w3))).
Proof.
  intros Hw Hj H3.
  assert (reachable w3) as Hw3.
  { pose proof (reachable_init pl j name 0 _ Hw) as H. by rewrite H3 in H. }
  destruct (init_returns _ _ _ _ _ _ _ H3) as (_ & Eh3 & Ev3 & Es3).
  unfold lower_to in Es3. simpl in Es3. rewrite Hj in Es3.
  split; [done|]. split; [done|].
  intros r o Ho Hoff.
  destruct (shared_ready _ _ _ (reachable_ok _ Hw) Ho Hoff)
    as (m & b1 & Hm & Hb1 & Hle1).
  rewrite Hb1 in Hj. simpl in Hj. apply Z.ltb_lt in Hj.
  assert (heap w3 !! r = Some o) as Ho3.
  { rewrite Eh3. by apply lookup_app_l_Some. }
  destruct (shared_ready _ _ _ (reachable_ok _ Hw3) Ho3 Hoff)
    as (m3 & b3 & Hm3 & Hb3 & Hle3).
  rewrite Es3 in Hb3. injection Hb3 as <-.
  exists b1, m3, (Z.land (Z.shiftr (_rgbleds_val w) ((index o - b1) * 3)) 7).
  rewrite Ev3.
  split; [done|]. split; [done|]. split; [done|]. split; [done|].
  split; [by apply read_shared|]. split.
  { intros w0 color Hw0%reachable_ok Hcolor Hon.
    pose proof Hcolor as Hc%in_range8_true.
    destruct (heap w0 !! r) as [o'|] eqn:Ho'.
    2:{ unfold on in Hon. rewrite Hc in Hon. unfold_m. simpl in Hon.
        unfold bind, getobj in Hon. by rewrite Ho' in Hon. }
    destruct (decide (_offset o' = 0)) as [Hoff'|Hoff'].
    - destruct (shared_ready _ _ _ Hw0 Ho' Hoff') as (m' & b' & Hm' & Hb' & Hle').
      rewrite (on_shared _ _ _ _ _ _ Hc Ho' Hoff' Hm' Hb' Hle') in Hon.
      simpl in Hon. injection Hon as <-. simpl in *.
      rewrite Ho' in Ho. injection Ho as <-.
      rewrite Hb' in Hb1. injection Hb1 as <-.
      unfold packed. by rewrite field_set_get by lia.
    - destruct (dedicated_ready _ _ _ Hw0 Ho' Hoff')
        as (m' & Hm' & Hpos & Hmod & _).
      rewrite (on_dedicated _ _ _ _ _ Hc Ho' Hpos Hmod Hm') in Hon.
      simpl in Hon. injection Hon as <-. simpl in *.
      rewrite list_lookup_insert_eq in Ho by by eapply lookup_lt_Some.
      injection Ho as <-. simpl in Hoff. lia. }
  split; [done|]. split; [lia|].
  rewrite <- Ev3. split; [by apply read_shared|]. split.
  - intros c' Hc'%in_range8_true. by apply on_shared.
  - by apply off_shared.
Qed.

Lemma lower_index_moves_baseline_witness :
  let w := (run board [New 3 default_ip_name 0; On 0 RGB_MAGENTA;
                       New 9 default_ip_name 4] init).2 in
  let w3 := (__init__ board 1 default_ip_name 0 w).2 in
  _rgbleds_start_index w3 = Int 1
  ∧ _rgbleds_val w3 = _rgbleds_val w
  ∧ ∀ r o,
      heap w !! r = Some o → _offset o = 0 →
      ∃ b1 m c,
        _rgbleds_start_index w = Int b1 ∧ 1 < b1 ∧ b1 <= index o
        ∧ heap w3 !! r = Some o
        ∧ read r w = (Ok c, w)
        ∧ (∀ w0 color,
             reachable w0 → 0 <= color < 8 → on r color w0 = (Ok tt, w) →
             c = color)
        ∧ Z.land (Z.shiftr (_rgbleds_val w3) ((index o - b1) * 3)) 7 = c
        ∧ (index o - b1) * 3 < (index o - 1) * 3
        ∧ read r w3
          = (Ok (Z.land (Z.shiftr (_rgbleds_val w3) ((index o - 1) * 3)) 7),
             w3)
        ∧ (∀ c', 0 <= c' < 8 →
             on r c' w3
             = (let v := packed (_rgbleds_val w3) c' ((index o - 1) * 3) in
                (Ok tt, stored m v 0 (set_rgbleds_val v w3))))
        ∧ off r w3
          = (let v := Z.land (_rgbleds_val w3)
                             (Z.lnot (Z.shiftl 7 ((index o - 1) * 3))) in
             (Ok tt, stored m v 0 (set_rgbleds_val v w3))).
Proof.
  intros w w3.
  apply (lower_index_moves_baseline board default_ip_name w w3 1 2%nat).
  - apply run_reachable, reach_init.
  - reflexivity.
  - reflexivity.
Defined.


(** * Further properties of the driver *)

(** ** More on three-bit fields *)

Lemma testbit_packed v c k n :
  0 <= k → 0 <= n → 0 <= c < 8 →
  Z.testbit (packed v c k) n
  = if (k <=? n) && (n <? k + 3) then Z.testbit c (n - k) else Z.testbit v n.
Proof.
  intros Hk Hn Hc. unfold packed.
  rewrite Z.lor_spec, Z.land_spec, testbit_field_mask, Z.shiftl_spec by done.
  destruct (Z.leb_spec k n); simpl.
  - destruct (Z.ltb_spec n (k + 3)); simpl.
    + by rewrite andb_false_r.
    + by rewrite andb_true_r, (testbit_color c), orb_false_r by lia.
  - by rewrite andb_true_r, (Z.testbit_neg_r c), orb_false_r by lia.
Qed.

Lemma packed_packed v c1 c2 k :
  0 <= k → 0 <= c1 < 8 → 0 <= c2 < 8 →
  packed (packed v c1 k) c2 k = packed v c2 k.
Proof.
  intros Hk H1 H2. apply Z.bits_inj'; intros n Hn.
  rewrite !testbit_packed by done. by destruct (_ && _).
Qed.

Lemma packed_comm v c1 c2 k1 k2 :
  0 <= k1 → 0 <= k2 → k1 + 3 <= k2 ∨ k2 + 3 <= k1 →
  0 <= c1 < 8 → 0 <= c2 < 8 →
  packed (packed v c1 k1) c2 k2 = packed (packed v c2 k2) c1 k1.
Proof.
  intros Hk1 Hk2 Hfar H1 H2. apply Z.bits_inj'; intros n Hn.
  rewrite !testbit_packed by done.
  destruct (Z.leb_spec k1 n), (Z.ltb_spec n (k1 + 3)),
           (Z.leb_spec k2 n), (Z.ltb_spec n (k2 + 3)); simpl; done || lia.
Qed.

Lemma packed_clear v k : packed v 0 k = Z.land v (Z.lnot (Z.shiftl 7 k)).
Proof. unfold packed. by rewrite Z.shiftl_0_l, Z.lor_0_r. Qed.

Lemma land_7_range x : 0 <= Z.land x 7 < 8.
Proof.
  change 7 with (Z.ones 3). rewrite Z.land_ones by lia.
  apply Z.mod_pos_bound. done.
Qed.

(** ** What a method call can do to a good store *)

(** [read] looks at the object, the shared value and the baseline only. *)
Lemma read_depends s w w' :
  heap w' !! s = heap w !! s → _rgbleds_val w' = _rgbleds_val w →
  _rgbleds_start_index w' = _rgbleds_start_index w →
  (read s w').1 = (read s w).1.
Proof.
  intros Hh Hv Hs. unfold read. unfold_m. rewrite Hh.
  destruct (heap w !! s) as [o|]; [|done].
  destruct (0 <? _offset o); [done|]. simpl. rewrite Hv, Hs.
  by destruct (rshift _ _).
Qed.

(** Clearing is setting the colour 0. *)
Lemma off_on_0 self w : off self w = on self 0 w.
Proof.
  unfold on, off. simpl. unfold_m.
  destruct (heap w !! self) as [o|]; [|done].
  destruct (0 <? _offset o); simpl; [by rewrite Z.lor_0_r|].
  destruct (shift_of o (_rgbleds_start_index w)) as [k| |]; simpl; try done.
  destruct (k <? 0); simpl; [done|].
  by rewrite Z.shiftl_0_l, Z.lor_0_r.
Qed.

Lemma on_outcome w self color :
  world_ok w →
  (∃ e, on self color w = (Raise e, w))
  ∨ (∃ o m b, heap w !! self = Some o ∧ _offset o = 0 ∧ _mmio w = Some m
              ∧ _rgbleds_start_index w = Int b ∧ b <= index o
              ∧ 0 <= color < 8
              ∧ on self color w
                = (let v := packed (_rgbleds_val w) color ((index o - b) * 3) in
                   (Ok tt, stored m v 0 (set_rgbleds_val v w))))
  ∨ (∃ o m, heap w !! self = Some o ∧ 0 < _offset o ∧ _offset o mod 4 = 0
            ∧ _mmio w = Some m ∧ 0 <= _val o < 8 ∧ 0 <= color < 8
            ∧ on self color w
              = (Ok tt, stored m color (_offset o)
                          (set_heap (<[self := set_val color o]> (heap w)) w))).
Proof.
  intros Hw. destruct (in_range8 color) eqn:Hc.
  2:{ left. eexists. by apply on_invalid. }
  pose proof Hc as Hcolor%in_range8_true.
  destruct (heap w !! self) as [o|] eqn:Ho.
  2:{ left. exists AttributeError. unfold on. rewrite Hc. unfold_m. simpl.
      by rewrite Ho. }
  destruct (decide (_offset o = 0)) as [Hoff|Hoff].
  - destruct (shared_ready _ _ _ Hw Ho Hoff) as (m & b & Hm & Hb & Hle).
    right; left. exists o, m, b. repeat split; try done; try lia.
    by apply on_shared.
  - destruct (dedicated_ready _ _ _ Hw Ho Hoff) as (m & Hm & Hpos & Hmod & Hv).
    right; right. exists o, m. repeat split; try done; try lia.
    rewrite (on_dedicated _ _ _ _ _ Hc Ho Hpos Hmod Hm). simpl.
    by rewrite local_set.
Qed.

Lemma off_outcome w self :
  world_ok w →
  (∃ e, off self w = (Raise e, w))
  ∨ (∃ o m b, heap w !! self = Some o ∧ _offset o = 0 ∧ _mmio w = Some m
              ∧ _rgbleds_start_index w = Int b ∧ b <= index o
              ∧ off self w
                = (let v := packed (_rgbleds_val w) 0 ((index o - b) * 3) in
                   (Ok tt, stored m v 0 (set_rgbleds_val v w))))
  ∨ (∃ o m, heap w !! self = Some o ∧ 0 < _offset o ∧ _offset o mod 4 = 0
            ∧ _mmio w = Some m ∧ 0 <= _val o < 8
            ∧ off self w
              = (Ok tt, stored m 0 (_offset o)
                          (set_heap (<[self := set_val 0 o]> (heap w)) w))).
Proof.
  intros Hw. destruct (heap w !! self) as [o|] eqn:Ho.
  2:{ left. exists AttributeError. unfold off. unfold_m. simpl. by rewrite Ho. }
  destruct (decide (_offset o = 0)) as [Hoff|Hoff].
  - destruct (shared_ready _ _ _ Hw Ho Hoff) as (m & b & Hm & Hb & Hle).
    right; left. exists o, m, b. repeat split; try done.
    rewrite packed_clear. by apply off_shared.
  - destruct (dedicated_ready _ _ _ Hw Ho Hoff) as (m & Hm & Hpos & Hmod & Hv).
    right; right. exists o, m. repeat split; try done; try lia.
    rewrite (off_dedicated _ _ _ _ Ho Hpos Hmod Hm). simpl.
    by rewrite local_clear.
Qed.

(** ** How [on] and [off] compose *)

(** X1: [off()] is [on(RGB_CLEAR)]: in every store and for every
    reference, the two calls return or raise the same and leave the same
    store, stores through the accessor included. *)
Theorem off_is_on_clear (self : nat) (w : world) :
  off self w = on self RGB_CLEAR w.
Proof.
  unfold on, off, RGB_CLEAR. simpl. unfold_m.
  destruct (heap w !! self) as [o|]; [|done].
  destruct (0 <? _offset o); simpl.
  - by rewrite Z.lor_0_r.
  - destruct (shift_of o (_rgbleds_start_index w)) as [k| |]; simpl; try done.
    destruct (k <? 0); simpl; [done|].
    by rewrite Z.shiftl_0_l, Z.lor_0_r.
Qed.

(** X2: the last colour wins.  In every store an execution can reach, for
    every object, [on(c1)] followed by [on(c2)] leaves the same shared value,
    the same objects and the same baseline as [on(c2)] alone. *)
Theorem on_last_write_wins (w : world) (self : nat) (o : instance) (c1 c2 : Z) :
  reachable w → heap w !! self = Some o → 0 <= c1 < 8 → 0 <= c2 < 8 →
  let w12 := (on self c2 (on self c1 w).2).2 in
  let w2 := (on self c2 w).2 in
  _rgbleds_val w12 = _rgbleds_val w2
  ∧ heap w12 = heap w2
  ∧ _rgbleds_start_index w12 = _rgbleds_start_index w2.
Proof.
  intros Hw%reachable_ok Ho H1 H2.
  pose proof H1 as Hc1%in_range8_true. pose proof H2 as Hc2%in_range8_true.
  destruct (decide (_offset o = 0)) as [Hoff|Hoff].
  - destruct (shared_ready _ _ _ Hw Ho Hoff) as (m & b & Hm & Hb & Hle).
    rewrite (on_shared _ c1 _ _ _ _ Hc1 Ho Hoff Hm Hb Hle).
    rewrite (on_shared _ c2 w _ _ _ Hc2 Ho Hoff Hm Hb Hle). simpl.
    erewrite (on_shared _ c2 _ o); [|done..]. simpl.
    by rewrite packed_packed by lia.
  - destruct (dedicated_ready _ _ _ Hw Ho Hoff) as (m & Hm & Hpos & Hmod & Hv).
    rewrite (on_dedicated _ c1 _ _ _ Hc1 Ho Hpos Hmod Hm).
    rewrite (on_dedicated _ c2 w _ _ Hc2 Ho Hpos Hmod Hm). simpl.
    erewrite (on_dedicated _ c2 _ (set_val _ o)); [|done| |done..].
    2:{ simpl. apply list_lookup_insert_eq. by eapply lookup_lt_Some. }
    simpl. rewrite list_insert_insert_eq.
    by rewrite !local_set by (done || (rewrite local_set by done; done)).
Qed.

Lemma on_last_write_wins_witness :
  let w := (run board [New 2 default_ip_name 0; New 0 default_ip_name 0]
                init).2 in
  _rgbleds_val (on 0 RGB_BLUE (on 0 RGB_WHITE w).2).2
  = _rgbleds_val (on 0 RGB_BLUE w).2.
Proof.
  intros w.
  apply (on_last_write_wins w 0%nat {| index := 2; _offset := 0; _val := 0 |}
           RGB_WHITE RGB_BLUE).
  - apply run_reachable, reach_init.
  - reflexivity.
  - unfold RGB_WHITE. lia.
  - unfold RGB_BLUE. lia.
Defined.

(** X3: [on] calls on two bit-packed objects with distinct indices
    commute: in every store an execution can reach, either order leaves the
    same shared value, the same objects and the same baseline. *)
Theorem on_commutes (w : world) (s1 s2 : nat) (o1 o2 : instance) (c1 c2 : Z) :
  reachable w → heap w !! s1 = Some o1 → heap w !! s2 = Some o2 →
  _offset o1 = 0 → _offset o2 = 0 → index o1 ≠ index o2 →
  0 <= c1 < 8 → 0 <= c2 < 8 →
  let w12 := (on s2 c2 (on s1 c1 w).2).2 in
  let w21 := (on s1 c1 (on s2 c2 w).2).2 in
  _rgbleds_val w12 = _rgbleds_val w21
  ∧ heap w12 = heap w21
  ∧ _rgbleds_start_index w12 = _rgbleds_start_index w21.
Proof.
  intros Hw%reachable_ok Hs1 Hs2 Hoff1 Hoff2 Hne H1 H2.
  pose proof H1 as Hc1%in_range8_true. pose proof H2 as Hc2%in_range8_true.
  destruct (shared_ready _ _ _ Hw Hs1 Hoff1) as (m & b & Hm & Hb & Hle1).
  destruct (shared_ready _ _ _ Hw Hs2 Hoff2) as (m' & b' & _ & Hb' & Hle2).
  rewrite Hb in Hb'. injection Hb' as <-.
  rewrite (on_shared _ c1 w _ _ _ Hc1 Hs1 Hoff1 Hm Hb Hle1).
  rewrite (on_shared _ c2 w _ _ _ Hc2 Hs2 Hoff2 Hm Hb Hle2). simpl.
  erewrite (on_shared _ c2 _ o2); [|done..].
  erewrite (on_shared _ c1 _ o1); [|done..]. simpl.
  by rewrite packed_comm by lia.
Qed.

Lemma on_commutes_witness :
  let w := (run board [New 0 default_ip_name 0; New 1 default_ip_name 0]
                init).2 in
  _rgbleds_val (on 1 RGB_GREEN (on 0 RGB_RED w).2).2
  = _rgbleds_val (on 0 RGB_RED (on 1 RGB_GREEN w).2).2.
Proof.
  intros w.
  apply (on_commutes w 0%nat 1%nat {| index := 0; _offset := 0; _val := 0 |}
           {| index := 1; _offset := 0; _val := 0 |} RGB_RED RGB_GREEN).
  - apply run_reachable, reach_init.
  - reflexivity.
  - reflexivity.
  - reflexivity.
  - reflexivity.
  - simpl. lia.
  - unfold RGB_RED. lia.
  - unfold RGB_GREEN. lia.
Defined.

(** X4: [on] and [off] of a bit-packed object change three bits only.  In
    every store an execution can reach, with [k] the shift of the object,
    every bit of the shared value outside [k, k+3) is the same before and
    after the call, whatever the colour. *)
Theorem on_changes_only_its_field (w : world) (self : nat) (o : instance) :
  reachable w → heap w !! self = Some o → _offset o = 0 →
  ∃ k, shift_of o (_rgbleds_start_index w) = Int k
       ∧ ∀ color n, 0 <= n → ¬ (k <= n < k + 3) →
           Z.testbit (_rgbleds_val (on self color w).2) n
           = Z.testbit (_rgbleds_val w) n
           ∧ Z.testbit (_rgbleds_val (off self w).2) n
             = Z.testbit (_rgbleds_val w) n.
Proof.
  intros Hw%reachable_ok Ho Hoff.
  destruct (shared_ready _ _ _ Hw Ho Hoff) as (m & b & Hm & Hb & Hle).
  exists ((index o - b) * 3). unfold shift_of. rewrite Hb. split; [done|].
  intros color n Hn Hout.
  assert (∀ c, 0 <= c < 8 →
               Z.testbit (packed (_rgbleds_val w) c ((index o - b) * 3)) n
               = Z.testbit (_rgbleds_val w) n) as Hbit.
  { intros c Hc. rewrite testbit_packed by lia.
    destruct (Z.leb_spec ((index o - b) * 3) n),
             (Z.ltb_spec n ((index o - b) * 3 + 3)); simpl; done || lia. }
  split.
  - destruct (in_range8 color) eqn:Hc; [|by rewrite on_invalid].
    rewrite (on_shared _ _ _ _ _ _ Hc Ho Hoff Hm Hb Hle). simpl.
    by apply Hbit, in_range8_true.
  - rewrite (off_shared _ _ _ _ _ Ho Hoff Hm Hb Hle). simpl.
    rewrite <- packed_clear. apply Hbit. lia.
Qed.

Lemma on_changes_only_its_field_witness :
  let w := (run board [New 0 default_ip_name 0; New 1 default_ip_name 0;
                       On 0 RGB_WHITE] init).2 in
  ∃ k, shift_of {| index := 1; _offset := 0; _val := 0 |}
                (_rgbleds_start_index w) = Int k
       ∧ ∀ color n, 0 <= n → ¬ (k <= n < k + 3) →
           Z.testbit (_rgbleds_val (on 1 color w).2) n
           = Z.testbit (_rgbleds_val w) n
           ∧ Z.testbit (_rgbleds_val (off 1 w).2) n
             = Z.testbit (_rgbleds_val w) n.
Proof.
  intros w.
  apply (on_changes_only_its_field w 1%nat
           {| index := 1; _offset := 0; _val := 0 |}).
  - apply run_reachable, reach_init.
  - reflexivity.
  - reflexivity.
Defined.

(** X5: the bit position depends on [index] alone, and indices are not
    checked for uniqueness: in every store an execution can reach, two
    bit-packed objects with the same index share one field, so a colour set
    through one is what [read()] returns on the other. *)
Theorem same_index_shares_field
    (w : world) (s1 s2 : nat) (o1 o2 : instance) (color : Z) :
  reachable w → heap w !! s1 = Some o1 → heap w !! s2 = Some o2 →
  _offset o1 = 0 → _offset o2 = 0 → index o1 = index o2 →
  0 <= color < 8 →
  read s2 (on s1 color w).2 = (Ok color, (on s1 color w).2).
Proof.
  intros Hw%reachable_ok Hs1 Hs2 Hoff1 Hoff2 Heq Hcolor.
  pose proof Hcolor as Hc%in_range8_true.
  destruct (shared_ready _ _ _ Hw Hs1 Hoff1) as (m & b & Hm & Hb & Hle1).
  rewrite (on_shared _ _ _ _ _ _ Hc Hs1 Hoff1 Hm Hb Hle1). simpl.
  erewrite (read_shared _ _ o2 b); [|done..|lia]. simpl.
  unfold packed. by rewrite Heq, field_set_get by lia.
Qed.

Lemma same_index_shares_field_witness :
  let w := (run board [New 5 default_ip_name 0; New 5 default_ip_name 0]
                init).2 in
  read 1 (on 0 RGB_CYAN w).2 = (Ok RGB_CYAN, (on 0 RGB_CYAN w).2).
Proof.
  intros w.
  apply (same_index_shares_field w 0%nat 1%nat
           {| index := 5; _offset := 0; _val := 0 |}
           {| index := 5; _offset := 0; _val := 0 |} RGB_CYAN).
  - apply run_reachable, reach_init.
  - reflexivity.
  - reflexivity.
  - reflexivity.
  - reflexivity.
  - reflexivity.
  - unfold RGB_CYAN. lia.
Defined.

(** ** Construction *)

(** X6: a construction that does not lower the baseline (a nonzero offset,
    or an index that is not below the baseline) leaves the shared value and
    the baseline as they were, keeps every existing object, and leaves what
    [read()] returns on each of them as it was, whether it returns or
    raises. *)
Theorem init_keeps_reads
    (pl : ip_dict) (i : Z) (name : string) (off : Z) (w : world) :
  off ≠ 0 ∨ int_lt i (_rgbleds_start_index w) = false →
  let w' := (__init__ pl i name off w).2 in
  _rgbleds_val w' = _rgbleds_val w
  ∧ _rgbleds_start_index w' = _rgbleds_start_index w
  ∧ ∀ s o, heap w !! s = Some o →
           heap w' !! s = Some o ∧ (read s w').1 = (read s w).1.
Proof.
  intros Hkeep. rewrite init_run.
  destruct (bound pl name w) as [w1|e] eqn:Hb; [|done].
  assert (heap w1 = heap w ∧ _rgbleds_val w1 = _rgbleds_val w
          ∧ _rgbleds_start_index w1 = _rgbleds_start_index w) as (Eh & Ev & Es).
  { unfold bound in Hb. repeat case_match; try done; by injection Hb as <-. }
  assert (lowered i off w1 = w1) as El.
  { unfold lowered. rewrite Es. destruct Hkeep as [Hoff| ->].
    - by destruct (Z.eqb_spec off 0).
    - by rewrite andb_false_r. }
  simpl. rewrite El.
  assert (∀ w2, heap w2 = heap w1
                ∨ (∃ x, heap w2 = heap w1 ++ [x]) →
                _rgbleds_val w2 = _rgbleds_val w1 →
                _rgbleds_start_index w2 = _rgbleds_start_index w1 →
                _rgbleds_val w2 = _rgbleds_val w
                ∧ _rgbleds_start_index w2 = _rgbleds_start_index w
                ∧ ∀ s o, heap w !! s = Some o →
                         heap w2 !! s = Some o ∧ (read s w2).1 = (read s w).1)
    as Hall.
  { intros w2 Hh Hv Hs. rewrite Hv, Hs, Ev, Es. split; [done|]. split; [done|].
    intros s o Hso. split.
    - destruct Hh as [-> | [x ->]]; rewrite Eh; [done|].
      by apply lookup_app_l_Some.
    - apply read_depends; [|congruence..].
      destruct Hh as [-> | [x ->]]; rewrite Eh; [done|].
      rewrite Hso. by apply lookup_app_l_Some. }
  destruct (off <? 0); [apply Hall; by auto|].
  destruct (negb _); [apply Hall; by auto|].
  apply Hall; simpl; [right; by eexists|done..].
Qed.

Lemma init_keeps_reads_witness :
  let w := (run board [New 1 default_ip_name 0; On 0 RGB_YELLOW] init).2 in
  let w' := (__init__ board 4 default_ip_name 0 w).2 in
  _rgbleds_val w' = _rgbleds_val w
  ∧ _rgbleds_start_index w' = _rgbleds_start_index w
  ∧ ∀ s o, heap w !! s = Some o →
           heap w' !! s = Some o ∧ (read s w').1 = (read s w).1.
Proof.
  intros w. apply (init_keeps_reads board 4 default_ip_name 0 w).
  right. reflexivity.
Defined.

(** X7: a construction returns exactly when the offset is nonnegative and a
    multiple of 4 and the accessor is bound or the block name resolves.
    When it returns, the reference is a new one, the object holds the given
    index and offset and the colour 0, no earlier object has moved, and the
    accessor is bound. *)
Theorem init_returns_iff
    (pl : ip_dict) (i : Z) (name : string) (off : Z) (w : world) :
  ((∃ a w', __init__ pl i name off w = (Ok a, w'))
   ↔ 0 <= off ∧ off mod 4 = 0
     ∧ (is_Some (_mmio w) ∨ ∃ base, phys_addr pl name = Ok base))
  ∧ ∀ a w', __init__ pl i name off w = (Ok a, w') →
            heap w !! a = None
            ∧ heap w' = heap w ++ [{| index := i; _offset := off; _val := 0 |}]
            ∧ heap w' !! a = Some {| index := i; _offset := off; _val := 0 |}
            ∧ is_Some (_mmio w').
Proof.
  split.
  - rewrite init_run. unfold bound. split.
    + intros (a & w' & H).
      destruct (_mmio w) as [m|] eqn:Hm.
      * simpl in H. destruct (Z.ltb_spec off 0); [done|].
        destruct (Z.eqb_spec (off mod 4) 0); [|done]. by eauto.
      * destruct (phys_addr pl name) as [base|]; [|done]. simpl in H.
        destruct (Z.ltb_spec off 0); [done|].
        destruct (Z.eqb_spec (off mod 4) 0); [|done]. by eauto 10.
    + intros (Hpos & Hmod & Hres).
      assert (∀ w1, ∃ a w',
                 (let w2 := lowered i off w1 in
                  if off <? 0
                  then (Raise (ValueError "Offset cannot be a negative value."),
                        w2)
                  else if negb (off mod 4 =? 0)
                  then (Raise (ValueError "Offset must be a multiple of 4."),
                        w2)
                  else (Ok (length (heap w2)),
                        set_heap
                          (heap w2
                           ++ [{| index := i; _offset := off; _val := 0 |}])
                          w2))
                 = (Ok a, w')) as Hok.
      { intros w1. simpl. destruct (Z.ltb_spec off 0); [lia|].
        rewrite Hmod. simpl. by eauto. }
      destruct (_mmio w) as [m|]; [apply Hok|].
      destruct Hres as [[? ?]|[base ->]]; [done|apply Hok].
  - intros a w' H.
    destruct (init_returns _ _ _ _ _ _ _ H) as (-> & Eh & _ & _).
    rewrite Eh. repeat split.
    + by apply lookup_ge_None_2.
    + by apply list_lookup_middle.
    + rewrite init_run in H.
      destruct (bound pl name w) as [w1|] eqn:Hb; [|done].
      assert (is_Some (_mmio w1)) as Hm.
      { unfold bound in Hb. destruct (_mmio w) eqn:Hm'.
        - injection Hb as <-. by rewrite Hm'.
        - destruct (phys_addr pl name); [|done]. injection Hb as <-.
          by eexists. }
      simpl in H. destruct (off <? 0); [done|]. destruct (negb _); [done|].
      injection H as _ <-. simpl.
      by destruct (lowered_rest i off w1) as (-> & _ & _).
Qed.

Lemma init_returns_iff_witness :
  heap init !! 0%nat = None
  ∧ heap (__init__ board 2 default_ip_name 8 init).2
    = heap init ++ [{| index := 2; _offset := 8; _val := 0 |}]
  ∧ heap (__init__ board 2 default_ip_name 8 init).2 !! 0%nat
    = Some {| index := 2; _offset := 8; _val := 0 |}
  ∧ is_Some (_mmio (__init__ board 2 default_ip_name 8 init).2).
Proof.
  destruct (init_returns_iff board 2 default_ip_name 8 init) as [_ H].
  apply (H 0%nat). reflexivity.
Defined.

(** X8: the accessor is bound once.  When the accessor is bound,
    construction ignores the table of hardware blocks and the block name
    (so an unknown name raises nothing), and in every store an execution can
    reach the bound accessor spans 16 bytes and keeps its base address and
    span through every call. *)
Theorem accessor_binds_once :
  (∀ w pl pl' name name' i off,
      is_Some (_mmio w) →
      __init__ pl i name off w = __init__ pl' i name' off w)
  ∧ (∀ w m, reachable w → _mmio w = Some m →
        span m = 16
        ∧ ∀ pl c, ∃ m', _mmio (exec pl c w).2 = Some m'
                        ∧ base_addr m' = base_addr m ∧ span m' = span m).
Proof.
  split.
  - intros w pl pl' name name' i off [m Hm]. rewrite !init_run. unfold bound.
    by rewrite Hm.
  - assert (∀ w pl c m, world_ok w → _mmio w = Some m →
              ∃ m', _mmio (exec pl c w).2 = Some m'
                    ∧ base_addr m' = base_addr m ∧ span m' = span m) as Hstep.
    { intros w pl c m Hw Hm. rewrite exec_store.
      destruct c as [i name off|s color|s|s color|s|v off].
      - rewrite init_run. unfold bound. rewrite Hm. simpl.
        destruct (lowered_rest i off w) as (Em & _ & _).
        exists m. repeat case_match; simpl; by rewrite Em.
      - destruct (on_outcome w s color Hw)
          as [[e ->]|[(o & m1 & b & _ & _ & Hm1 & _ & _ & _ & ->)
                     |(o & m1 & _ & _ & _ & Hm1 & _ & _ & ->)]];
          simpl; eauto; rewrite Hm in Hm1; injection Hm1 as <-; by eauto.
      - destruct (off_outcome w s Hw)
          as [[e ->]|[(o & m1 & b & _ & _ & Hm1 & _ & _ & ->)
                     |(o & m1 & _ & _ & _ & Hm1 & _ & ->)]];
          simpl; eauto; rewrite Hm in Hm1; injection Hm1 as <-; by eauto.
      - destruct (on_outcome w s color Hw)
          as [[e ->]|[(o & m1 & b & _ & _ & Hm1 & _ & _ & _ & ->)
                     |(o & m1 & _ & _ & _ & Hm1 & _ & _ & ->)]];
          simpl; eauto; rewrite Hm in Hm1; injection Hm1 as <-; by eauto.
      - by eauto.
      - rewrite set_value_run, Hm.
        repeat case_match; simpl; by eauto. }
    intros w m Hw Hm. split; [|intros pl c; by apply Hstep; [apply reachable_ok|]].
    revert m Hm. induction Hw as [|pl c w Hw IH]; [done|].
    intros m' Hm'. destruct (_mmio w) as [m|] eqn:Hm.
    + destruct (Hstep w pl c m (reachable_ok _ Hw) Hm) as (m2 & Hm2 & _ & Hs).
      rewrite Hm' in Hm2. injection Hm2 as <-. rewrite Hs. by apply IH.
    + rewrite exec_store in Hm'.
      assert (∀ s color, _mmio (on s color w).2 = None) as Hon.
      { intros s color.
        destruct (on_outcome w s color (reachable_ok _ Hw))
          as [[e ->]|[(o & m1 & b & _ & _ & Hm1 & _)
                     |(o & m1 & _ & _ & _ & Hm1 & _)]]; simpl; congruence. }
      destruct c as [i name off|s color|s|s color|s|v off].
      * rewrite init_run in Hm'. unfold bound in Hm'. rewrite Hm in Hm'.
        destruct (phys_addr pl name) as [base|]; simpl in Hm'; [|congruence].
        destruct (lowered_rest i off (set_mmio (Some (MMIO_new base 16)) w))
          as (Em & _ & _).
        repeat case_match; simpl in Hm'; rewrite Em in Hm'; simpl in Hm';
          by injection Hm' as <-.
      * by rewrite Hon in Hm'.
      * by rewrite off_on_0, Hon in Hm'.
      * by rewrite Hon in Hm'.
      * congruence.
      * rewrite set_value_run, Hm in Hm'.
        repeat case_match; simpl in Hm'; congruence.
Qed.

Lemma accessor_binds_once_witness :
  __init__ ∅ 1 "no_such_block" 0 (run board [New 0 default_ip_name 0] init).2
  = __init__ board 1 default_ip_name 0
      (run board [New 0 default_ip_name 0] init).2
  ∧ span (MMIO_write (MMIO_new 1092681728 16) 0 4) = 16.
Proof.
  destruct accessor_binds_once as [Hignore Hspan]. split.
  - apply Hignore. by eexists.
  - apply (Hspan (run board [New 0 default_ip_name 0; On 0 RGB_RED] init).2).
    + apply run_reachable, reach_init.
    + reflexivity.
Defined.

(** ** The stores through the accessor *)

(** A construction performs no store and keeps the shared value. *)
Lemma init_val_hw pl i name off w :
  _rgbleds_val (__init__ pl i name off w).2 = _rgbleds_val w
  ∧ hw_stores (__init__ pl i name off w).2 = hw_stores w.
Proof.
  rewrite init_run. destruct (bound pl name w) as [w1|e] eqn:Hb; [|done].
  assert (_rgbleds_val w1 = _rgbleds_val w ∧ hw_stores w1 = hw_stores w)
    as [Ev Eh].
  { unfold bound in Hb. unfold hw_stores. destruct (_mmio w) eqn:Hm.
    - injection Hb as <-. by rewrite Hm.
    - destruct (phys_addr pl name); [|done]. by injection Hb as <-. }
  destruct (lowered_rest i off w1) as (Em & Ev' & _).
  assert (hw_stores (lowered i off w1) = hw_stores w1) as El.
  { unfold hw_stores. by rewrite Em. }
  simpl. destruct (off <? 0); [simpl; split; congruence|].
  destruct (negb _); [simpl; split; congruence|].
  unfold hw_stores in *. simpl. split; congruence.
Qed.

(** What one call does to the log of stores and to the shared value. *)
Lemma exec_hw pl c w :
  world_ok w →
  (hw_stores (exec pl c w).2 = hw_stores w
   ∧ (_rgbleds_val (exec pl c w).2 = _rgbleds_val w
      ∨ hw_stores (exec pl c w).2 = []))
  ∨ (∃ k v, hw_stores (exec pl c w).2 = (k, v) :: hw_stores w
            ∧ 0 <= k ∧ k mod 4 = 0
            ∧ (exec pl c w).1 = Ok VNone
            ∧ is_store_call c = true
            ∧ _rgbleds_val (exec pl c w).2
              = if k =? 0 then v else _rgbleds_val w).
Proof.
  intros Hw.
  assert (∀ s color,
            (hw_stores (on s color w).2 = hw_stores w
             ∧ _rgbleds_val (on s color w).2 = _rgbleds_val w
             ∧ ∃ e, (on s color w).1 = Raise e)
            ∨ (∃ k v, hw_stores (on s color w).2 = (k, v) :: hw_stores w
                      ∧ 0 <= k ∧ k mod 4 = 0
                      ∧ (on s color w).1 = Ok tt
                      ∧ _rgbleds_val (on s color w).2
                        = if k =? 0 then v else _rgbleds_val w)) as Hon.
  { intros s color.
    destruct (on_outcome w s color Hw)
      as [[e ->]|[(o & m & b & _ & _ & Hm & _ & _ & _ & ->)
                 |(o & m & _ & Hpos & Hmod & Hm & _ & _ & ->)]].
    - left. by eauto.
    - right. eexists 0, _. unfold hw_stores. rewrite Hm. simpl. by eauto.
    - right. exists (_offset o), color. unfold hw_stores. rewrite Hm. simpl.
      destruct (Z.eqb_spec (_offset o) 0); [lia|].
      repeat split; done || lia. }
  assert (∀ c' s color,
            (exec pl c' w).1 = match (on s color w).1 with
                               | Ok _ => Ok VNone
                               | Raise e => Raise e
                               end →
            (exec pl c' w).2 = (on s color w).2 →
            is_store_call c' = true →
            (hw_stores (exec pl c' w).2 = hw_stores w
             ∧ (_rgbleds_val (exec pl c' w).2 = _rgbleds_val w
                ∨ hw_stores (exec pl c' w).2 = []))
            ∨ (∃ k v, hw_stores (exec pl c' w).2 = (k, v) :: hw_stores w
                      ∧ 0 <= k ∧ k mod 4 = 0
                      ∧ (exec pl c' w).1 = Ok VNone
                      ∧ is_store_call c' = true
                      ∧ _rgbleds_val (exec pl c' w).2
                        = if k =? 0 then v else _rgbleds_val w)) as Hvia.
  { intros c' s color H1 H2 Hc'. rewrite H1, H2.
    destruct (Hon s color) as [(? & ? & _)|(k & v & ? & ? & ? & Hr & ?)].
    - left. by auto.
    - right. exists k, v. by rewrite Hr. }
  destruct c as [i name off|s color|s|s color|s|v off].
  - left. rewrite exec_store.
    destruct (init_val_hw pl i name off w) as [-> ->]. by auto.
  - apply (Hvia _ s color); [|by rewrite exec_store|done].
    simpl. unfold bind, ret. by destruct (on s color w) as [[[]|e] w'].
  - apply (Hvia _ s 0); [|by rewrite exec_store, off_on_0|done].
    simpl. unfold bind, ret. rewrite off_on_0.
    by destruct (on s 0 w) as [[[]|e] w'].
  - apply (Hvia _ s color); [|by rewrite exec_store|done].
    simpl. unfold bind, ret, write. by destruct (on s color w) as [[[]|e] w'].
  - left. rewrite exec_store. by auto.
  - simpl. unfold bind, ret. rewrite set_value_run. unfold hw_stores.
    destruct (Z.ltb_spec off 0); [left; by auto|].
    destruct (Z.eqb_spec (off mod 4) 0); simpl; [|left; by auto].
    destruct (_mmio w) as [m|] eqn:Hm; simpl.
    + right. exists off, v. destruct (off =? 0); simpl; by rewrite ?Hm.
    + left. destruct (off =? 0); simpl; rewrite Hm; by auto.
Qed.

(** X9: every register access is aligned.  In every store an execution can
    reach, each store performed through the accessor went to a byte offset
    that is nonnegative and a multiple of 4. *)
Theorem stores_are_aligned (w : world) (k v : Z) :
  reachable w → (k, v) ∈ hw_stores w → 0 <= k ∧ k mod 4 = 0.
Proof.
  intros Hw. revert k v. induction Hw as [|pl c w Hw IH]; intros k v Hin.
  - by apply elem_of_nil in Hin.
  - destruct (exec_hw pl c w (reachable_ok _ Hw))
      as [[Hs _]|(k' & v' & Hs & Hk & Hmod & _)]; rewrite Hs in Hin.
    + by eapply IH.
    + apply elem_of_cons in Hin as [[= -> ->]|Hin]; [done|by eapply IH].
Qed.

Lemma stores_are_aligned_witness :
  0 <= 8 ∧ 8 mod 4 = 0.
Proof.
  apply (stores_are_aligned
           (run board [New 0 default_ip_name 8; On 0 RGB_RED] init).2 8 4).
  - apply run_reachable, reach_init.
  - apply list_elem_of_here.
Defined.

(** X10: the cached shared value is what the hardware holds.  In every
    store an execution can reach, if a store to the shared register (byte
    offset 0) has been performed, the value of the latest one is
    [_rgbleds_val]. *)
Theorem cache_matches_last_store (w : world) (v : Z) :
  reachable w →
  latest_store RGBLEDS_XGPIO_OFFSET (hw_stores w) = Some v →
  _rgbleds_val w = v.
Proof.
  intros Hw. revert v. induction Hw as [|pl c w Hw IH]; intros v Hl; [done|].
  destruct (exec_hw pl c w (reachable_ok _ Hw))
    as [[Hs [Hv|Hnil]]|(k' & v' & Hs & _ & _ & _ & _ & Hv)].
  - rewrite Hv. apply IH. by rewrite <- Hs.
  - by rewrite Hnil in Hl.
  - rewrite Hs in Hl. simpl in Hl. rewrite Hv. unfold RGBLEDS_XGPIO_OFFSET in *.
    destruct (k' =? 0); [by injection Hl|by apply IH].
Qed.

Lemma cache_matches_last_store_witness :
  _rgbleds_val
    (run board [New 0 default_ip_name 0; New 1 default_ip_name 4;
                On 0 RGB_RED; On 1 RGB_BLUE] init).2 = 4.
Proof.
  apply cache_matches_last_store.
  - apply run_reachable, reach_init.
  - reflexivity.
Defined.

(** X11: a call of [on], [write] or [off] that returns has performed
    exactly one store, at the byte offset of the object: for a bit-packed
    object the whole new shared value at offset 0, for a dedicated-slot
    object its new colour at its own offset. *)
Theorem on_off_store_once (w : world) (self : nat) (o : instance) (color : Z) :
  reachable w → heap w !! self = Some o → 0 <= color < 8 →
  hw_stores (on self color w).2
  = (_offset o,
     if _offset o =? 0 then _rgbleds_val (on self color w).2 else color)
    :: hw_stores w
  ∧ hw_stores (write self color w).2 = hw_stores (on self color w).2
  ∧ hw_stores (off self w).2
    = (_offset o,
       if _offset o =? 0 then _rgbleds_val (off self w).2 else RGB_CLEAR)
      :: hw_stores w.
Proof.
  intros Hw%reachable_ok Ho Hcolor. split; [|split; [done|]].
  - destruct (on_outcome w self color Hw)
      as [[e He]|[(o' & m & b & Ho' & Hoff & Hm & _ & _ & _ & ->)
                 |(o' & m & Ho' & Hpos & _ & Hm & _ & _ & ->)]].
    + pose proof Hcolor as Hc%in_range8_true.
      destruct (decide (_offset o = 0)) as [Hoff|Hoff].
      * destruct (shared_ready _ _ _ Hw Ho Hoff) as (m & b & Hm & Hb & Hle).
        by rewrite (on_shared _ _ _ _ _ _ Hc Ho Hoff Hm Hb Hle) in He.
      * destruct (dedicated_ready _ _ _ Hw Ho Hoff) as (m & Hm & Hp & Hmod & _).
        by rewrite (on_dedicated _ _ _ _ _ Hc Ho Hp Hmod Hm) in He.
    + rewrite Ho in Ho'. injection Ho' as <-. unfold hw_stores.
      rewrite Hm, Hoff. done.
    + rewrite Ho in Ho'. injection Ho' as <-. unfold hw_stores.
      rewrite Hm. simpl. by destruct (Z.eqb_spec (_offset o) 0); [lia|].
  - destruct (off_outcome w self Hw)
      as [[e He]|[(o' & m & b & Ho' & Hoff & Hm & _ & _ & ->)
                 |(o' & m & Ho' & Hpos & _ & Hm & _ & ->)]].
    + destruct (decide (_offset o = 0)) as [Hoff|Hoff].
      * destruct (shared_ready _ _ _ Hw Ho Hoff) as (m & b & Hm & Hb & Hle).
        by rewrite (off_shared _ _ _ _ _ Ho Hoff Hm Hb Hle) in He.
      * destruct (dedicated_ready _ _ _ Hw Ho Hoff) as (m & Hm & Hp & Hmod & _).
        by rewrite (off_dedicated _ _ _ _ Ho Hp Hmod Hm) in He.
    + rewrite Ho in Ho'. injection Ho' as <-. unfold hw_stores.
      rewrite Hm, Hoff. done.
    + rewrite Ho in Ho'. injection Ho' as <-. unfold hw_stores.
      rewrite Hm. simpl. by destruct (Z.eqb_spec (_offset o) 0); [lia|].
Qed.

Lemma on_off_store_once_witness :
  let w := (run board [New 0 default_ip_name 0; New 1 default_ip_name 0;
                       On 0 RGB_RED] init).2 in
  hw_stores (on 1 RGB_GREEN w).2 = (0, 20) :: hw_stores w.
Proof.
  intros w.
  apply (on_off_store_once w 1%nat {| index := 1; _offset := 0; _val := 0 |}
           RGB_GREEN).
  - apply run_reachable, reach_init.
  - reflexivity.
  - unfold RGB_GREEN. lia.
Defined.

(** X12: in every store an execution can reach, a call that raises has
    performed no store through the accessor, and neither has a [read] or a
    construction, whatever they return; the driver never reads the hardware
    back, [read] leaving the whole store as it was. *)
Theorem quiet_calls_store_nothing (w : world) (pl : ip_dict) (c : call) :
  reachable w →
  ((∃ e, (exec pl c w).1 = Raise e) ∨ is_store_call c = false) →
  hw_stores (exec pl c w).2 = hw_stores w
  ∧ ∀ self, (exec pl (Read self) w).2 = w.
Proof.
  intros Hw%reachable_ok Hquiet. split.
  - destruct (exec_hw pl c w Hw) as [[Hs _]|(k & v & _ & _ & _ & Hr & Hc & _)];
      [done|].
    destruct Hquiet as [[e He]|Hq]; congruence.
  - intros self. by rewrite exec_store.
Qed.

Lemma quiet_calls_store_nothing_witness :
  let w := (run board [New 0 default_ip_name 0; On 0 RGB_RED] init).2 in
  hw_stores (exec board (On 0 12) w).2 = hw_stores w
  ∧ ∀ self, (exec board (Read self) w).2 = w.
Proof.
  intros w. apply (quiet_calls_store_nothing w board (On 0 12)).
  - apply run_reachable, reach_init.
  - left. by eexists.
Defined.

(** ** The objects *)

Lemma init_heap pl i name off w :
  heap (__init__ pl i name off w).2 = heap w
  ∨ (∃ a, (__init__ pl i name off w).1 = Ok a
          ∧ heap (__init__ pl i name off w).2
            = heap w ++ [{| index := i; _offset := off; _val := 0 |}]).
Proof.
  destruct (__init__ pl i name off w) as [[a|e] w'] eqn:H.
  - right. exists a. simpl.
    by destruct (init_returns _ _ _ _ _ _ _ H) as (_ & -> & _).
  - left. simpl. rewrite init_run in H.
    destruct (bound pl name w) as [w1|e'] eqn:Hb; [|by injection H as _ <-].
    assert (heap w1 = heap w) as Eh.
    { unfold bound in Hb. repeat case_match; try done; by injection Hb as <-. }
    destruct (lowered_rest i off w1) as (_ & _ & El). simpl in H.
    destruct (off <? 0); [injection H as _ <-; congruence|].
    destruct (negb _); [injection H as _ <-; congruence|done].
Qed.

(** What one call does to the heap. *)
Lemma exec_heap pl c w :
  world_ok w →
  heap (exec pl c w).2 = heap w
  ∨ (∃ s o v, heap w !! s = Some o ∧ 0 < _offset o
              ∧ heap (exec pl c w).2 = <[s := set_val v o]> (heap w))
  ∨ (∃ i name off a, c = New i name off ∧ (exec pl c w).1 = Ok (VRef a)
                     ∧ heap (exec pl c w).2
                       = heap w ++ [{| index := i; _offset := off; _val := 0 |}]).
Proof.
  intros Hw.
  assert (∀ s color,
            heap (on s color w).2 = heap w
            ∨ (∃ s' o v, heap w !! s' = Some o ∧ 0 < _offset o
                         ∧ heap (on s color w).2 = <[s' := set_val v o]> (heap w)))
    as Hon.
  { intros s color.
    destruct (on_outcome w s color Hw)
      as [[e ->]|[(o & m & b & _ & _ & _ & _ & _ & _ & ->)
                 |(o & m & Ho & Hpos & _ & _ & _ & _ & ->)]];
      [by left..|].
    right. by exists s, o, color. }
  destruct c as [i name off|s color|s|s color|s|v off].
  - destruct (init_heap pl i name off w) as [H|(a & Hr & H)].
    + left. by rewrite exec_store.
    + right; right. exists i, name, off, a. split; [done|].
      rewrite exec_store. split; [|done].
      simpl. unfold bind, ret.
      by destruct (__init__ pl i name off w) as [[a'|e] w']; simplify_eq/=.
  - rewrite exec_store. destruct (Hon s color); by auto.
  - rewrite exec_store, off_on_0. destruct (Hon s 0); by auto.
  - rewrite exec_store. destruct (Hon s color); by auto.
  - left. by rewrite exec_store.
  - left. by rewrite exec_store, set_value_heap.
Qed.

(** X13: [read()] returns a 3-bit colour.  In every store an execution can
    reach, on every object, [read()] returns (it never raises), assigns
    nothing, and its result lies in [0,8), whatever was written to the
    shared value by other calls. *)
Theorem read_returns_colour (w : world) (self : nat) (o : instance) :
  reachable w → heap w !! self = Some o →
  ∃ c, read self w = (Ok c, w) ∧ 0 <= c < 8.
Proof.
  intros Hw%reachable_ok Ho.
  destruct (decide (_offset o = 0)) as [Hoff|Hoff].
  - destruct (shared_ready _ _ _ Hw Ho Hoff) as (m & b & Hm & Hb & Hle).
    eexists. split; [by apply (read_shared _ _ o b)|apply land_7_range].
  - destruct (dedicated_ready _ _ _ Hw Ho Hoff) as (m & Hm & Hpos & Hmod & Hv).
    exists (_val o). split; [by apply read_dedicated|done].
Qed.

Lemma read_returns_colour_witness :
  let w := (run board [New 0 default_ip_name 0; SetValue (-1) 0] init).2 in
  ∃ c, read 0 w = (Ok c, w) ∧ 0 <= c < 8.
Proof.
  intros w.
  apply (read_returns_colour w 0%nat {| index := 0; _offset := 0; _val := 0 |}).
  - apply run_reachable, reach_init.
  - reflexivity.
Defined.

(** X14: objects are never removed and never change their [index] or
    [_offset].  In every store an execution can reach, after any call every
    existing reference still denotes an object with the same index and
    offset; a construction that returns adds exactly one object, the one it
    returns, and every other call, a construction that raises included,
    leaves the number of objects as it was. *)
Theorem objects_keep_identity (w : world) (pl : ip_dict) (c : call) :
  reachable w →
  let w' := (exec pl c w).2 in
  (∀ r o, heap w !! r = Some o →
          ∃ o', heap w' !! r = Some o'
                ∧ index o' = index o ∧ _offset o' = _offset o)
  ∧ (∀ i name off a,
       c = New i name off → (exec pl c w).1 = Ok (VRef a) →
       a = length (heap w)
       ∧ length (heap w') = S (length (heap w))
       ∧ heap w' !! a = Some {| index := i; _offset := off; _val := 0 |})
  ∧ ((∀ i name off, c ≠ New i name off) ∨ (∃ e, (exec pl c w).1 = Raise e) →
     length (heap w') = length (heap w)).
Proof.
  intros Hw%reachable_ok. simpl. split; [|split].
  - destruct (exec_heap pl c w Hw)
      as [->|[(s & o & v & Hs & _ & ->)|(i & name & off & a & -> & Hr & ->)]].
    + by eauto.
    + intros r o' Hr'. destruct (decide (r = s)) as [->|Hne].
      * rewrite Hs in Hr'. injection Hr' as <-. exists (set_val v o).
        split; [|done]. apply list_lookup_insert_eq. by eapply lookup_lt_Some.
      * exists o'. by rewrite list_lookup_insert_ne.
    + intros r o Hr'. exists o. split; [|done]. by apply lookup_app_l_Some.
  - intros i name off a -> Hr. simpl in *. unfold bind, ret in *.
    destruct (__init__ pl i name off w) as [[a'|e] w'] eqn:Hinit;
      simpl in *; [|done].
    injection Hr as ->.
    destruct (init_returns _ _ _ _ _ _ _ Hinit) as (-> & -> & _).
    split; [done|]. split.
    + rewrite length_app. simpl. lia.
    + by apply list_lookup_middle.
  - intros Hother.
    destruct (exec_heap pl c w Hw)
      as [->|[(s & o & v & Hs & _ & ->)|(i & name & off & a & -> & Hr & _)]].
    + done.
    + apply length_insert.
    + destruct Hother as [Hnew|[e He]]; [by destruct (Hnew i name off)|].
      congruence.
Qed.

Lemma objects_keep_identity_witness :
  let w := (run board [New 3 default_ip_name 4] init).2 in
  (∀ r o, heap w !! r = Some o →
          ∃ o', heap (exec board (New 1 default_ip_name 0) w).2 !! r = Some o'
                ∧ index o' = index o ∧ _offset o' = _offset o)
  ∧ (1%nat = length (heap w)
     ∧ length (heap (exec board (New 1 default_ip_name 0) w).2)
       = S (length (heap w))
     ∧ heap (exec board (New 1 default_ip_name 0) w).2 !! 1%nat
       = Some {| index := 1; _offset := 0; _val := 0 |})
  ∧ length (heap (exec board (New 1 default_ip_name 6) w).2)
    = length (heap w).
Proof.
  intros w.
  assert (reachable w) as Hw by apply run_reachable, reach_init.
  destruct (objects_keep_identity w board (New 1 default_ip_name 0) Hw)
    as (Hkeep & Hnew & _).
  destruct (objects_keep_identity w board (New 1 default_ip_name 6) Hw)
    as (_ & _ & Hraise).
  split; [exact Hkeep|]. split.
  - apply (Hnew 1 default_ip_name 0 1%nat); reflexivity.
  - apply Hraise. right. by eexists.
Defined.

(** X15: [_val] belongs to dedicated-slot objects only.  In every store an
    execution can reach, every object constructed with [offset == 0] still
    has [_val == 0]: no call on a bit-packed object assigns it. *)
Theorem packed_objects_keep_val_zero (w : world) (r : nat) (o : instance) :
  reachable w → heap w !! r = Some o → _offset o = 0 → _val o = 0.
Proof.
  intros Hw. revert r o. induction Hw as [|pl c w Hw IH]; intros r o Hr Hoff.
  - by destruct r.
  - destruct (exec_heap pl c w (reachable_ok _ Hw))
      as [H|[(s & o1 & v & Hs & Hpos & H)|(i & name & off & a & -> & _ & H)]];
      rewrite H in Hr.
    + by eapply IH.
    + destruct (decide (r = s)) as [->|Hne].
      * rewrite list_lookup_insert_eq in Hr by by eapply lookup_lt_Some.
        injection Hr as <-. simpl in Hoff. lia.
      * rewrite list_lookup_insert_ne in Hr by done. by eapply IH.
    + apply lookup_app_Some in Hr as [Hr|[_ Hr]]; [by eapply IH|].
      destruct (r - length (heap w))%nat; simpl in Hr; [|done].
      by injection Hr as <-.
Qed.

Lemma packed_objects_keep_val_zero_witness :
  _val {| index := 2; _offset := 0; _val := 0 |} = 0.
Proof.
  apply (packed_objects_keep_val_zero
           (run board [New 2 default_ip_name 0; On 0 RGB_WHITE; Off 0;
                       Write 0 RGB_RED] init).2 0%nat).
  - apply run_reachable, reach_init.
  - reflexivity.
  - reflexivity.
Defined.

(** ** The register write before any construction *)

(** X16: while no accessor is bound, a register write at offset 0 raises
    [AttributeError] after it has assigned the shared value.  In every store
    an execution can reach with no accessor bound, that value therefore
    stays: a bit-packed object constructed next reads the low three bits of
    it, although nothing has been stored through the accessor. *)
Theorem unbound_register_write_leaks
    (w : world) (v : Z) (pl : ip_dict) (i : Z) (name : string) (base : Z) :
  reachable w → _mmio w = None → phys_addr pl name = Ok base →
  _set_rgbleds_value v 0 w = (Raise AttributeError, set_rgbleds_val v w)
  ∧ ∃ w2, __init__ pl i name 0 (set_rgbleds_val v w) = (Ok 0%nat, w2)
          ∧ read 0 w2 = (Ok (Z.land v 7), w2)
          ∧ hw_stores w2 = [].
Proof.
  intros Hw%reachable_ok Hm Hbase.
  assert (heap w = []) as Hnil.
  { destruct (heap w) eqn:Hh; [done|]. destruct Hw as [H1 _ _].
    destruct H1 as [m Hm']; [by rewrite Hh|congruence]. }
  assert (_rgbleds_start_index w = Inf) as Hinf.
  { destruct Hw as [_ _ H3]. by rewrite H3, Hnil. }
  split.
  - rewrite set_value_run. simpl. by rewrite Hm.
  - rewrite init_run. unfold bound. simpl. rewrite Hm, Hbase. simpl.
    unfold lowered. simpl. rewrite Hinf. simpl. rewrite Hnil. simpl.
    eexists. split; [done|]. split; [|done].
    unfold read. unfold_m. simpl. unfold shift_of. simpl.
    rewrite Z.sub_diag. simpl. by rewrite Z.shiftr_0_r.
Qed.

Lemma unbound_register_write_leaks_witness :
  _set_rgbleds_value 13 0 init = (Raise AttributeError, set_rgbleds_val 13 init)
  ∧ ∃ w2, __init__ board 2 default_ip_name 0 (set_rgbleds_val 13 init)
          = (Ok 0%nat, w2)
          ∧ read 0 w2 = (Ok (Z.land 13 7), w2)
          ∧ hw_stores w2 = [].
Proof.
  apply (unbound_register_write_leaks init 13 board 2 default_ip_name
           1092681728).
  - apply reach_init.
  - reflexivity.
  - reflexivity.
Defined.
